(** * BinaryVis: sampler, result cache, chunked streaming and client reassembly

    A shallow embedding of the server-side data pipeline of BinaryVis
    (the Rust modules [sampling/uniform.rs], [core/cache.rs],
    [core/file_manager.rs], [server/websocket.rs] and
    [server/handlers.rs]) and of the client-side [DataManager],
    [WebSocketClient] and file fingerprint, with the properties of the
    sampling windows, of the LRU cache, of the chunked transfer and of
    the two endpoints proved over it.

    Conventions.
    - A [usize] is a natural number below [2^64]; the arithmetic of the
      release build wraps, and the wrap-around is written out in
      [Usize].  Theorems assume that the length of a file is a [usize]
      and that a [Vec] holds at most [isize::MAX] bytes.
    - A [Vec<u8>] and a mapped file are lists of bytes.
    - A computation either returns, returns an [AppError], or panics
      (division by zero, index or slice out of range): type [outcome].
    - [thread_rng()] is a stream of raw words; [gen_range] reduces one
      word into the requested inclusive range.  Theorems quantify over
      every stream, hence over every possible draw.
    - The one floating-point computation, the square root of the
      target size, is written out in integers: the conversion to a
      double rounds to 53 bits, the root is the exact root rounded to
      the nearest double, the cast truncates.
    - The file system is what the operating system answers for a path;
      creating and writing a file are calls whose outcome the
      operating system decides.  Theorems quantify over all of it.
    - A frame on the socket is its MessagePack content, with or
      without the envelope of the protocol. *)

From Stdlib Require Import NArith ZArith Lia.
From stdpp Require Import base numbers list sorting gmap strings.
From Stdlib Require Import Ascii.

Local Open Scope N_scope.

(* The solvers of stdpp clear names that may already be gone. *)
Set Warnings "-clear-no-such-hyp".

(** ** Machine integers *)

Module Usize.

Definition BITS : N := 64.
Definition modulus : N := 2 ^ BITS.
Definition MAX : N := modulus - 1.

(** [isize::MAX], the largest length a [Vec] can have. *)
Definition ISIZE_MAX : N := 2 ^ (BITS - 1) - 1.

Definition wrap (x : N) : N := x mod modulus.

Definition add (a b : N) : N := wrap (a + b).
Definition mul (a b : N) : N := wrap (a * b).
(** [a - b] on [usize] values [a b < modulus], wrapping below zero. *)
Definition sub (a b : N) : N := wrap (a + modulus - b).
(** [a.saturating_sub(b)]: truncated subtraction. *)
Definition saturating_sub (a b : N) : N := a - b.

Definition valid (x : N) : Prop := x < modulus.

End Usize.

(** ** Errors, panics and outcomes *)

(** [enum AppError] of [error.rs]; the payloads that are foreign error
    values ([std::io::Error], [anyhow::Error]) are dropped. *)
Inductive AppError : Type :=
  | FileNotFound (path : string)
  | FileTooLarge (size : N)
  | FileAccess
  | SamplingFailed (msg : string)
  | InvalidSampleSize (size : N)
  | Internal
  | BadRequest (msg : string)
  | ConnectionClosed
  | InvalidMessage.

Inductive panic : Type :=
  | DivideByZero
  | IndexOutOfBounds
  | SliceIndexOrder
  | SliceEndIndexLen
  | EmptyRange.

Inductive outcome (A : Type) : Type :=
  | Ok (a : A)
  | Err (e : AppError)
  | Panic (p : panic).
Arguments Ok {A} a.
Arguments Err {A} e.
Arguments Panic {A} p.

Definition outcome_bind {A B} (f : A → outcome B) (x : outcome A) : outcome B :=
  match x with
  | Ok a => f a
  | Err e => Err e
  | Panic p => Panic p
  end.

#[global] Instance outcome_mbind : MBind outcome := @outcome_bind.
#[global] Instance outcome_mret : MRet outcome := @Ok.

(** [a / b] on integers: panics when the divisor is zero. *)
Definition checked_div (a b : N) : outcome N :=
  if b =? 0 then Panic DivideByZero else Ok (a / b).

(** [data[start..end_].to_vec()]. *)
Definition slice {A} (data : list A) (start end_ : N) : outcome (list A) :=
  if end_ <? start then Panic SliceIndexOrder
  else if N.of_nat (length data) <? end_ then Panic SliceEndIndexLen
  else Ok (take (N.to_nat (end_ - start)) (drop (N.to_nat start) data)).

(** [xs.iter().map(f).collect()] for a fallible [f], left to right. *)
Fixpoint try_map {A B} (f : A → outcome B) (xs : list A) : outcome (list B) :=
  match xs with
  | [] => Ok []
  | x :: xs' => y ← f x; ys ← try_map f xs'; Ok (y :: ys)
  end.

(** ** The uniform sampler ([sampling/uniform.rs]) *)

Module Sampler.

Record SampleMetadata : Type := {
  original_size : N;
  sample_size : N;
  method : string;
}.

Record SampleResult : Type := {
  data : list Byte.byte;
  metadata : SampleMetadata;
}.

(** The state of [thread_rng()]: the stream of raw words it will yield. *)
Definition Rng : Type := nat → N.

(** [rng.gen_range(low..=high)] on the raw word [word]. *)
Definition gen_range_inclusive (word low high : N) : outcome N :=
  if high <? low then Panic EmptyRange
  else Ok (low + word mod (high - low + 1)).

(** [n as f64] for a [usize]: the nearest double, ties to even.  A
    double has 53 significant bits, so the conversion is exact below
    [2^53]; from there on the bits below the 53 leading ones are
    rounded off.  The value of the result is an integer and is given as
    one. *)
Definition usize_as_f64 (n : N) : N :=
  if n <? 2 ^ 53 then n
  else
    let shift := N.log2 n - 52 in
    let q := n / 2 ^ shift in
    let r := n mod 2 ^ shift in
    let half := 2 ^ (shift - 1) in
    if (half <? r) || ((r =? half) && N.odd q)
    then (q + 1) * 2 ^ shift
    else q * 2 ^ shift.

(** [x.sqrt() as usize] for the double of integer value [x]: the
    square root of IEEE 754, which is the exact root rounded to the
    nearest double, then truncated.  With [s] the integer square root
    and [2^e <= s < 2^(e+1)], the doubles from [s] to [s + 1] are the
    multiples of [2^(e-52)], so the exact root is rounded up to [s + 1]
    when it is at least [s + 1 - 2^(e-53)], and to a double below
    [s + 1] otherwise.  The comparison is made on the squares, scaled
    by [2^(2k)] with [k = 53 - e]. *)
Definition f64_sqrt_trunc (x : N) : N :=
  let s := N.sqrt x in
  if s =? 0 then 0
  else
    let k := 53 - N.log2 s in
    if ((s + 1) * 2 ^ k - 1) ^ 2 <=? x * 2 ^ (2 * k) then s + 1 else s.

(** [(target_size as f64).sqrt() as usize]. *)
Definition f64_sqrt_as_usize (n : N) : N := f64_sqrt_trunc (usize_as_f64 n).

Definition window_size_of (target_size : N) : N := f64_sqrt_as_usize target_size.

Definition windows_count_of (target_size : N) : outcome N :=
  checked_div target_size (window_size_of target_size).

Definition max_offset_of (data_size windows_count window_size : N) : N :=
  Usize.saturating_sub data_size (Usize.mul windows_count window_size).

(** [windows.sort_unstable()]: the keys are plain integers, so every
    sorting algorithm yields the same vector. *)
Definition sort_unstable (windows : list N) : list N := merge_sort N.le windows.

(** [for i in 0..windows_count { windows[i] += i * window_size; }],
    the loop running over the indices [idxs]. *)
Fixpoint spread (window_size : N) (idxs : list nat) (windows : list N)
  : outcome (list N) :=
  match idxs with
  | [] => Ok windows
  | i :: idxs' =>
      match windows !! i with
      | None => Panic IndexOutOfBounds
      | Some w =>
          spread window_size idxs'
            (<[i := Usize.add w (Usize.mul (N.of_nat i) window_size)]> windows)
      end
  end.

(** The window positions of one run: the random draws, sorted and
    spread apart. *)
Definition window_offsets (rng : Rng) (data_size target_size : N)
  : outcome (list N) :=
  let window_size := window_size_of target_size in
  windows_count ← windows_count_of target_size;
  let max_offset := max_offset_of data_size windows_count window_size in
  windows ← try_map (λ i, gen_range_inclusive (rng i) 0 max_offset)
               (seq 0 (N.to_nat windows_count));
  let windows := sort_unstable windows in
  spread window_size (seq 0 (N.to_nat windows_count)) windows.

(** The closure of the parallel extraction: one window at [offset]. *)
Definition extract (bytes : list Byte.byte) (window_size offset : N)
  : outcome (list Byte.byte) :=
  let data_size := N.of_nat (length bytes) in
  let end_ := N.min (Usize.add offset window_size) data_size in
  slice bytes offset end_.

(** [UniformSampler::sample]. *)
Definition sample (rng : Rng) (bytes : list Byte.byte) (target_size : N)
  : outcome SampleResult :=
  let data_size := N.of_nat (length bytes) in
  if data_size <=? target_size then
    Ok {| data := bytes;
          metadata := {| original_size := data_size;
                         sample_size := data_size;
                         method := "full" |} |}
  else
    let window_size := window_size_of target_size in
    windows ← window_offsets rng data_size target_size;
    chunks ← try_map (extract bytes window_size) windows;
    let result := concat chunks in
    Ok {| data := result;
          metadata := {| original_size := data_size;
                         sample_size := N.of_nat (length result);
                         method := "uniform" |} |}.

(** The half-open byte range of the window at [offset]. *)
Definition window_range (window_size offset : N) : N * N :=
  (offset, offset + window_size).

Definition ranges_disjoint (r1 r2 : N * N) : Prop :=
  ∀ x, ¬ (r1.1 ≤ x < r1.2 ∧ r2.1 ≤ x < r2.2).

End Sampler.

(** Test data: the byte whose value is [n mod 256]. *)
Definition byte_of (n : N) : Byte.byte :=
  default Byte.x00 (Byte.of_N (n mod 256)).

(** ** The result cache ([core/cache.rs]) *)

Module Cache.

Record CacheEntry : Type := {
  data : list Byte.byte;
  size : N;
}.

Record CacheStore : Type := {
  map : gmap N CacheEntry;
  order : list N;
  total_size : N;
}.

(** The mutex makes every operation atomic; a cache value is the
    capacity together with the protected store. *)
Record Cache : Type := {
  capacity : N;
  store : CacheStore;
}.

(** [CacheStats]; its fields [total_size] and [capacity] carry a
    prefix here, the names being taken by the records above. *)
Record CacheStats : Type := {
  entries : nat;
  stats_total_size : N;
  stats_capacity : N;
}.

Definition new (capacity : N) : Cache :=
  {| capacity := capacity;
     store := {| map := ∅; order := []; total_size := 0 |} |}.

(** [order.retain(|&k| k != key)]. *)
Definition retain_ne (key : N) (order : list N) : list N :=
  filter (λ k, k ≠ key) order.

(** [Cache::get]: the looked-up bytes and the cache afterwards. *)
Definition get (key : N) (c : Cache) : option (list Byte.byte) * Cache :=
  let st := store c in
  match map st !! key with
  | Some entry =>
      let order' := retain_ne key (order st) ++ [key] in
      (Some (data entry),
       {| capacity := capacity c;
          store := {| map := map st; order := order';
                      total_size := total_size st |} |})
  | None => (None, c)
  end.

(** The first step of [put]: drop the entry already stored under [key]. *)
Definition remove_existing (key : N) (st : CacheStore) : CacheStore :=
  match map st !! key with
  | Some old_entry =>
      {| map := delete key (map st);
         order := retain_ne key (order st);
         total_size := Usize.sub (total_size st) (size old_entry) |}
  | None => st
  end.

(** The eviction loop of [put]: while the new entry does not fit and
    the queue is not empty, pop the front key and drop its entry.  The
    loop consumes the queue, which is the argument of the recursion. *)
Fixpoint evict (capacity new_size : N) (m : gmap N CacheEntry)
    (total : N) (queue : list N) : CacheStore :=
  match queue with
  | [] => {| map := m; order := []; total_size := total |}
  | evict_key :: rest =>
      if capacity <? Usize.add total new_size then
        match m !! evict_key with
        | Some entry =>
            evict capacity new_size (delete evict_key m)
              (Usize.sub total (size entry)) rest
        | None => evict capacity new_size m total rest
        end
      else {| map := m; order := queue; total_size := total |}
  end.

(** The last step of [put]: insert when the entry fits. *)
Definition insert_if_fits (capacity key : N) (bytes : list Byte.byte)
    (st : CacheStore) : CacheStore :=
  let new_size := N.of_nat (length bytes) in
  if Usize.add (total_size st) new_size <=? capacity then
    {| map := <[key := {| data := bytes; size := new_size |}]> (map st);
       order := order st ++ [key];
       total_size := Usize.add (total_size st) new_size |}
  else st.

(** [Cache::put]. *)
Definition put (key : N) (bytes : list Byte.byte) (c : Cache) : Cache :=
  let new_size := N.of_nat (length bytes) in
  let st1 := remove_existing key (store c) in
  let st2 := evict (capacity c) new_size (map st1) (total_size st1) (order st1) in
  {| capacity := capacity c;
     store := insert_if_fits (capacity c) key bytes st2 |}.

(** [Cache::clear]. *)
Definition clear (c : Cache) : Cache :=
  {| capacity := capacity c;
     store := {| map := ∅; order := []; total_size := 0 |} |}.

(** [Cache::stats]. *)
Definition stats (c : Cache) : CacheStats :=
  {| entries := base.size (map (store c));
     stats_total_size := total_size (store c);
     stats_capacity := capacity c |}.

(** The operations of the public interface that touch the store. *)
Inductive op : Type :=
  | Get (key : N)
  | Put (key : N) (bytes : list Byte.byte)
  | Clear.

Definition step (c : Cache) (o : op) : Cache :=
  match o with
  | Get key => (get key c).2
  | Put key bytes => put key bytes c
  | Clear => clear c
  end.

Definition run (c : Cache) (ops : list op) : Cache := foldl step c ops.

(** The sum of the sizes of all stored entries. *)
Definition stored_bytes (m : gmap N CacheEntry) : N :=
  map_fold (λ _ entry acc, size entry + acc) 0 m.

(** A [Vec] never holds more than [isize::MAX] bytes; a [put] is
    within range when the byte budget and the new vector together
    stay a [usize]. *)
Definition op_in_range (capacity : N) (o : op) : Prop :=
  match o with
  | Put _ bytes => capacity + N.of_nat (length bytes) < Usize.modulus
  | _ => True
  end.

(** The representation invariant of the store: the size counter is
    the sum of the stored sizes and within the capacity, every entry
    records the length of its bytes, and the queue lists the stored
    keys, each once. *)
Record invariant (c : Cache) : Prop := {
  inv_total : total_size (store c) = stored_bytes (map (store c));
  inv_bound : total_size (store c) ≤ capacity c;
  inv_sizes : ∀ k e, map (store c) !! k = Some e →
                size e = N.of_nat (length (data e));
  inv_nodup : NoDup (order (store c));
  inv_keys : ∀ k, k ∈ order (store c) ↔ is_Some (map (store c) !! k);
}.

(** The reading of the oversize rule under which such a [put] goes
    unnoticed: the number of entries is what it was, and the key is
    absent afterwards. *)
Definition oversize_put_unnoticed (c : Cache) (key : N)
    (bytes : list Byte.byte) : Prop :=
  entries (stats (put key bytes c)) = entries (stats c)
  ∧ (get key (put key bytes c)).1 = None.

(** Removing the keys [keys] from [m], in order. *)
Definition delete_all (keys : list N) (m : gmap N CacheEntry)
  : gmap N CacheEntry :=
  foldl (λ acc k, delete k acc) m keys.

End Cache.

(** ** Chunked streaming and the session ([server/websocket.rs]) *)

Module Stream.

Definition CHUNK_SIZE : N := 256 * 1024.

(** [protocol::DataMessage]. *)
Record DataMessage : Type := {
  offset : N;
  total : N;
  chunk : list Byte.byte;
}.

(** A binary frame, by its MessagePack content.  The protocol wraps
    every payload in an envelope with the fields [type], [id],
    [timestamp] and [payload]: [DataEnvelope] and [ErrorFrame] are the
    envelopes of type [data] and [error], without the two fields that
    nobody reads.  [DataFrame] is the encoding of a [DataMessage] by
    itself, with no envelope and hence no field [type]: this is what
    [rmp_serde::to_vec(&message)] yields in [stream_sample].  The
    codec is taken as lossless, so a frame is its decoded content. *)
Inductive Frame : Type :=
  | DataFrame (msg : DataMessage)
  | DataEnvelope (payload : DataMessage)
  | ErrorFrame (code : N) (message : string).

(** The sending half [tx] of the bounded queue: whether the task that
    drains it is still alive, and what has been handed to it. *)
Record Sender : Type := {
  receiver_alive : bool;
  sent : list Frame;
}.

(** [tx.send(packed).await.map_err(|_| AppError::ConnectionClosed)]:
    the frame is queued as it is; the sending task writes each queued
    frame to the socket unchanged. *)
Definition send (tx : Sender) (f : Frame) : outcome Sender :=
  if receiver_alive tx then
    Ok {| receiver_alive := true; sent := sent tx ++ [f] |}
  else Err ConnectionClosed.

(** The [while offset < total] loop of [stream_sample].  [fuel]
    bounds the number of iterations; [None] means it ran out.  The
    sender is returned in every case: frames already queued stay
    queued when a later step fails. *)
Fixpoint stream_loop (fuel : nat) (sample : list Byte.byte)
    (total offset : N) (tx : Sender) : option (outcome unit * Sender) :=
  match fuel with
  | O => None
  | S fuel' =>
      if offset <? total then
        let end_ := N.min (Usize.add offset CHUNK_SIZE) total in
        match slice sample offset end_ with
        | Ok chunk =>
            let message :=
              {| offset := offset; total := total; chunk := chunk |} in
            match send tx (DataFrame message) with
            | Ok tx' => stream_loop fuel' sample total end_ tx'
            | Err e => Some (Err e, tx)
            | Panic p => Some (Panic p, tx)
            end
        | Err e => Some (Err e, tx)
        | Panic p => Some (Panic p, tx)
        end
      else Some (Ok (), tx)
  end.

(** [stream_sample]: every iteration moves [offset] forward, so one
    unit of fuel per byte, and one for the final test, is enough. *)
Definition stream_sample (tx : Sender) (sample : list Byte.byte)
  : option (outcome unit * Sender) :=
  stream_loop (S (length sample)) sample (N.of_nat (length sample)) 0 tx.

(** The error frames among the frames handed to the sender, as (code,
    message) pairs. *)
Definition error_frames (frames : list Frame) : list (N * string) :=
  omap (λ f, match f with
             | ErrorFrame code message => Some (code, message)
             | DataFrame _ | DataEnvelope _ => None
             end)
    frames.

(** [msgs] tile the bytes of [sample] from [start] to [total]: each
    message starts where the previous one ended, carries the bytes of
    the sample found there, at least one and at most [CHUNK_SIZE] of
    them, and announces [total]; the last one ends at [total]. *)
Fixpoint tiles (sample : list Byte.byte) (total start : N)
    (msgs : list DataMessage) : Prop :=
  match msgs with
  | [] => start = total
  | m :: rest =>
      offset m = start
      ∧ Stream.total m = total
      ∧ 0 < N.of_nat (length (chunk m)) ≤ CHUNK_SIZE
      ∧ chunk m = take (length (chunk m)) (drop (N.to_nat start) sample)
      ∧ tiles sample total (start + N.of_nat (length (chunk m))) rest
  end.

(** A sender with a live consumer and nothing queued yet. *)
Definition fresh_sender : Sender :=
  {| receiver_alive := true; sent := [] |}.

End Stream.

(** ** The file manager ([core/file_manager.rs]) *)

Module FileManager.

(** [Path::is_absolute] on a Unix path. *)
Definition is_absolute (path : string) : bool :=
  match path with
  | String "/" _ => true
  | _ => false
  end.

(** Whether [PathBuf::push] has to add a separator: the buffer is not
    empty and its last byte is not one. *)
Fixpoint need_separator (base : string) : bool :=
  match base with
  | EmptyString => false
  | String c EmptyString => negb (Ascii.eqb c "/")
  | String _ rest => need_separator rest
  end.

(** [base.join(path)] on Unix: an absolute [path] replaces [base];
    a relative one is appended, after a separator where one is needed.
    Nothing is normalised: [.] and [..] stay in the result. *)
Definition join (base path : string) : string :=
  if is_absolute path then path
  else if need_separator base then base +:+ "/" +:+ path
  else base +:+ path.

(** What the operating system answers when [mmap_file] looks at a
    path: [path.exists()] is false; or the path exists but
    [File::open] or the mapping fails, as for a directory or without
    the permission to read; or both succeed and the mapping holds
    these bytes. *)
Inductive PathState : Type :=
  | NoSuchPath
  | Unreadable
  | Readable (bytes : list Byte.byte).

(** The file manager and the file system under it: the upload
    directory and the state of every path.  The paths are resolved by
    the operating system, so two of them may name the same file, and a
    path need not lie inside the upload directory. *)
Record Files : Type := {
  upload_dir : string;
  at_path : string → PathState;
}.

(** [self.upload_dir.join(file_id)]. *)
Definition path_of (fs : Files) (file_id : string) : string :=
  join (upload_dir fs) file_id.

(** [mmap_file]. *)
Definition mmap_file (fs : Files) (file_id : string)
  : outcome (list Byte.byte) :=
  match at_path fs (path_of fs file_id) with
  | NoSuchPath => Err (FileNotFound file_id)
  | Unreadable => Err FileAccess
  | Readable bytes => Ok bytes
  end.

Section writing.

(** [File::create(&path)] and [file.write_all(data)] of tokio: whether
    the call succeeds, and the state of the paths afterwards.  Both are
    left to the operating system: nothing is assumed about what a
    successful write leaves behind, nor about a failed one. *)
Variable create : string → (string → PathState) → bool * (string → PathState).
Variable write_all :
  string → list Byte.byte → (string → PathState) → bool * (string → PathState).

(** [save_file]; [file_id] is the identifier that [Uuid::new_v4] yields. *)
Definition save_file (max_file_size : N) (file_id : string)
    (data : list Byte.byte) (filename : string) (fs : Files)
  : outcome string * Files :=
  if max_file_size <? N.of_nat (length data) then
    (Err (FileTooLarge (N.of_nat (length data))), fs)
  else
    let path := path_of fs file_id in
    match create path (at_path fs) with
    | (false, paths) =>
        (Err FileAccess, {| upload_dir := upload_dir fs; at_path := paths |})
    | (true, paths) =>
        match write_all path data paths with
        | (false, paths') =>
            (Err FileAccess,
             {| upload_dir := upload_dir fs; at_path := paths' |})
        | (true, paths') =>
            (Ok file_id, {| upload_dir := upload_dir fs; at_path := paths' |})
        end
    end.

End writing.

(** A file system in which no path exists, and one in which the only
    path is that of [file_id], a file holding [bytes]. *)
Definition no_files (dir : string) : Files :=
  {| upload_dir := dir; at_path := λ _, NoSuchPath |}.

Definition holding (dir file_id : string) (bytes : list Byte.byte) : Files :=
  {| upload_dir := dir;
     at_path := λ path,
       if decide (path = join dir file_id) then Readable bytes
       else NoSuchPath |}.

End FileManager.

Module Session.

(** Modelled from the spec: [protocol::MessageType] and
    [protocol::Message] of [protocol/messages.rs], which is not part of
    the sources.  The envelope carries a type, a correlation id, a
    timestamp and an opaque payload; [handle_message] distinguishes
    the types [SampleRequest] and [Control] from all others. *)
Inductive MessageType : Type :=
  | SampleRequest
  | Control
  | Data
  | Error.

Record Message : Type := {
  type_field : MessageType;
  id : string;
  timestamp : N;
  payload : list Byte.byte;
}.

(** Modelled from the spec: [protocol::SampleRequest], the decoded
    payload of a sampling request. *)
Record SampleRequestPayload : Type := {
  sample_size : N;
  method : string;
}.

(** [AppState]: the file manager with the file system it reads, the
    cache, and the state of [thread_rng()]. *)
Record AppState : Type := {
  files : FileManager.Files;
  cache : Cache.Cache;
  rng : Sampler.Rng;
}.

(** What arrives on the socket: [receiver.next().await]. *)
Inductive WsEvent : Type :=
  | Binary (bytes : list Byte.byte)
  | Close
  | Other
  | WsError.

(** [state.file_manager.mmap_file(file_id)]. *)
Definition mmap_file (st : AppState) (file_id : string)
  : outcome (list Byte.byte) :=
  FileManager.mmap_file (files st) file_id.

(** The words a call of [sample] takes from the generator. *)
Definition draws_consumed (data_size target_size : N) : nat :=
  if data_size <=? target_size then O
  else match Sampler.windows_count_of target_size with
       | Ok windows_count => N.to_nat windows_count
       | _ => O
       end.

Section handlers.

(** [rmp_serde::from_slice] at the two types it is used at, and
    [Cache::make_key] (a [DefaultHasher] digest). *)
Variable decode_message : list Byte.byte → option Message.
Variable decode_sample_request : list Byte.byte → option SampleRequestPayload.
Variable make_key : string → N → N.

(** [handle_control_message], whose body is not part of the sources. *)
Variable handle_control_message :
  AppState → list Byte.byte → outcome unit * AppState.

(** [perform_sampling]. *)
Definition perform_sampling (st : AppState) (file_id : string)
    (sample_size : N) : outcome (list Byte.byte) * AppState :=
  let cache_key := make_key file_id sample_size in
  match Cache.get cache_key (cache st) with
  | (Some cached, cache') =>
      (Ok cached, {| files := files st; cache := cache'; rng := rng st |})
  | (None, cache') =>
      match mmap_file st file_id with
      | Ok mmap =>
          let rng' := λ i,
            rng st (draws_consumed (N.of_nat (length mmap)) sample_size + i)%nat in
          match Sampler.sample (rng st) mmap sample_size with
          | Ok result =>
              (Ok (Sampler.data result),
               {| files := files st;
                  cache := Cache.put cache_key (Sampler.data result) cache';
                  rng := rng' |})
          | Err e =>
              (Err e, {| files := files st; cache := cache'; rng := rng' |})
          | Panic p =>
              (Panic p, {| files := files st; cache := cache'; rng := rng' |})
          end
      | Err e => (Err e, {| files := files st; cache := cache'; rng := rng st |})
      | Panic p => (Panic p, {| files := files st; cache := cache'; rng := rng st |})
      end
  end.

(** [handle_message]: the result, the state and the sender afterwards
    ([None]: the streaming loop ran out of fuel). *)
Definition handle_message (st : AppState) (file_id : string)
    (bytes : list Byte.byte) (tx : Stream.Sender)
  : option (outcome unit * AppState * Stream.Sender) :=
  match decode_message bytes with
  | None => Some (Err InvalidMessage, st, tx)
  | Some message =>
      match type_field message with
      | SampleRequest =>
          match decode_sample_request (payload message) with
          | None => Some (Err InvalidMessage, st, tx)
          | Some request =>
              match perform_sampling st file_id (sample_size request) with
              | (Ok sample, st') =>
                  match Stream.stream_sample tx sample with
                  | Some (r, tx') => Some (r, st', tx')
                  | None => None
                  end
              | (Err e, st') => Some (Err e, st', tx)
              | (Panic p, st') => Some (Panic p, st', tx)
              end
          end
      | Control =>
          let '(r, st') := handle_control_message st (payload message) in
          Some (r, st', tx)
      | _ => Some (Err InvalidMessage, st, tx)
      end
  end.

(** The receiving task of [handle_socket]: it handles the inbound
    events in order and stops at the first failure, at a close frame
    or when the peer is gone. *)
Fixpoint recv_task (events : list WsEvent) (st : AppState)
    (file_id : string) (tx : Stream.Sender)
  : option (AppState * Stream.Sender) :=
  match events with
  | [] => Some (st, tx)
  | Binary bytes :: rest =>
      match handle_message st file_id bytes tx with
      | Some (Ok _, st', tx') => recv_task rest st' file_id tx'
      | Some (_, st', tx') => Some (st', tx')
      | None => None
      end
  | Close :: _ => Some (st, tx)
  | WsError :: _ => Some (st, tx)
  | Other :: rest => recv_task rest st file_id tx
  end.

(** [sample_file], the synchronous endpoint, up to the Base64
    encoding of the response. *)
Definition sample_file (max_sample_size : N) (st : AppState)
    (file_id : string) (request : SampleRequestPayload)
  : outcome (list Byte.byte) * AppState :=
  if max_sample_size <? sample_size request then
    (Err (InvalidSampleSize (sample_size request)), st)
  else perform_sampling st file_id (sample_size request).

End handlers.

End Session.

(** ** The client ([DataManager.js], [WebSocketClient.js], [main.js]) *)

Module Client.

Inductive js_error : Type :=
  | BufferNotInitialized
  | RangeError
  | ServerError (message : string).

Inductive js (A : Type) : Type :=
  | Return (a : A)
  | Throw (e : js_error).
Arguments Return {A} a.
Arguments Throw {A} e.

(** The fields of a [DataManager] that its methods read.  The callback
    is an opaque function; [onDataCallback] records whether one is
    registered and [delivered] the buffers it has been called with. *)
Record DataManager : Type := {
  buffer : option (list Byte.byte);
  totalSize : N;
  receivedSize : N;
  onDataCallback : bool;
  delivered : list (list Byte.byte);
}.

Definition constructor : DataManager :=
  {| buffer := None; totalSize := 0; receivedSize := 0;
     onDataCallback := false; delivered := [] |}.

Definition onData (dm : DataManager) : DataManager :=
  {| buffer := buffer dm; totalSize := totalSize dm;
     receivedSize := receivedSize dm;
     onDataCallback := true; delivered := delivered dm |}.

(** [initialize(totalSize)]; [new Uint8Array(n)] is [n] zero bytes. *)
Definition initialize (total : N) (dm : DataManager) : DataManager :=
  {| buffer := Some (replicate (N.to_nat total) Byte.x00);
     totalSize := total; receivedSize := 0;
     onDataCallback := onDataCallback dm; delivered := delivered dm |}.

Definition clear (dm : DataManager) : DataManager :=
  {| buffer := None; totalSize := 0; receivedSize := 0;
     onDataCallback := onDataCallback dm; delivered := delivered dm |}.

(** [buf.set(chunk, offset)] of a typed array: a [RangeError] unless
    the chunk fits at [offset]. *)
Definition typed_array_set (buf : list Byte.byte) (chunk : list Byte.byte)
    (offset : Z) : js (list Byte.byte) :=
  if ((offset <? 0) || (Z.of_nat (length buf) <? offset + Z.of_nat (length chunk)))%Z
  then Throw RangeError
  else Return (take (Z.to_nat offset) buf ++ chunk
               ++ drop (Z.to_nat offset + length chunk) buf).

(** [addChunk(offset, chunk)]. *)
Definition addChunk (offset : Z) (chunk : list Byte.byte) (dm : DataManager)
  : js (bool * DataManager) :=
  match buffer dm with
  | None => Throw BufferNotInitialized
  | Some buf =>
      match typed_array_set buf chunk offset with
      | Throw e => Throw e
      | Return buf' =>
          let received := receivedSize dm + N.of_nat (length chunk) in
          if totalSize dm <=? received then
            Return (true,
                    {| buffer := Some buf'; totalSize := totalSize dm;
                       receivedSize := received;
                       onDataCallback := onDataCallback dm;
                       delivered :=
                         if onDataCallback dm then delivered dm ++ [buf']
                         else delivered dm |})
          else
            Return (false,
                    {| buffer := Some buf'; totalSize := totalSize dm;
                       receivedSize := received;
                       onDataCallback := onDataCallback dm;
                       delivered := delivered dm |})
      end
  end.

(** A run of [addChunk] calls: the results in order and the final
    manager, or the first exception. *)
Fixpoint addChunks (chunks : list (Z * list Byte.byte)) (dm : DataManager)
  : js (list bool * DataManager) :=
  match chunks with
  | [] => Return ([], dm)
  | (offset, chunk) :: rest =>
      match addChunk offset chunk dm with
      | Throw e => Throw e
      | Return (complete, dm') =>
          match addChunks rest dm' with
          | Throw e => Throw e
          | Return (results, dm'') => Return (complete :: results, dm'')
          end
      end
  end.




(** The bytes received by a run of [addChunk] calls. *)
Definition total_length (chunks : list (Z * list Byte.byte)) : N :=
  foldr (λ c acc, N.of_nat (length c.2) + acc) 0 chunks.

(** How often the completion flag was raised. *)
Definition completions (results : list bool) : nat :=
  length (filter (λ b, b = true) results).


End Client.

(** ** HTTP responses ([error.rs]) *)

Module Http.

(** [impl IntoResponse for AppError]: the status of the response, which
    is also the [code] field of its JSON body. *)
Definition status (e : AppError) : N :=
  match e with
  | FileNotFound _ => 404
  | FileTooLarge _ => 413
  | FileAccess => 403
  | InvalidSampleSize _ => 400
  | BadRequest _ => 400
  | _ => 500
  end.

End Http.

(** ** The upload handler ([server/handlers.rs]) *)

Module Handlers.

Record UploadResponse : Type := {
  file_id : string;
  filename : string;
  size : N;
}.

(** One field of a multipart body: its name, its file name, its bytes. *)
Record Field : Type := {
  field_name : string;
  field_file_name : string;
  field_bytes : list Byte.byte;
}.

Section upload.

(** The two calls that [save_file] makes to the operating system. *)
Variable create : string → (string → FileManager.PathState)
                  → bool * (string → FileManager.PathState).
Variable write_all : string → list Byte.byte → (string → FileManager.PathState)
                     → bool * (string → FileManager.PathState).

(** [upload_file] on the fields of the request: the first field is
    saved and answered, the others are never read. *)
Definition upload_file (max_file_size : N) (fresh_id : string)
    (st : Session.AppState) (fields : list Field)
  : outcome UploadResponse * Session.AppState :=
  match fields with
  | [] => (Err (BadRequest "No file provided"), st)
  | field :: _ =>
      let '(saved, fs) :=
        FileManager.save_file create write_all max_file_size fresh_id
          (field_bytes field) (field_file_name field) (Session.files st) in
      let st' := {| Session.files := fs;
                    Session.cache := Session.cache st;
                    Session.rng := Session.rng st |} in
      match saved with
      | Ok file_id =>
          (Ok {| file_id := file_id;
                 filename := field_file_name field;
                 size := N.of_nat (length (field_bytes field)) |}, st')
      | Err e => (Err e, st')
      | Panic p => (Panic p, st')
      end
  end.

End upload.

End Handlers.

(** ** The fingerprint of a file name ([main.js]) *)

Module Fingerprint.

Local Open Scope Z_scope.

(** [ToInt32] and [ToUint32] on an integral number. *)
Definition to_int32 (x : Z) : Z := (x + 2 ^ 31) mod 2 ^ 32 - 2 ^ 31.
Definition to_uint32 (x : Z) : Z := x mod 2 ^ 32.

(** [x << 5]: both the operand and the result are 32-bit integers. *)
Definition shl5 (x : Z) : Z := to_int32 (Z.shiftl (to_int32 x) 5).

(** The loop of [hashString] over the UTF-16 code units of the string.
    A JavaScript number is a double; the sums are written in [Z], which
    is what the doubles hold as long as they stay below [2^53]. *)
Fixpoint hash_loop (hash : Z) (codes : list Z) : Z :=
  match codes with
  | [] => hash
  | c :: codes' => hash_loop ((shl5 hash + hash) + c) codes'
  end.

Definition hex_digit (d : Z) : Ascii.ascii :=
  nth (Z.to_nat d)
    ["0"; "1"; "2"; "3"; "4"; "5"; "6"; "7"; "8"; "9";
     "a"; "b"; "c"; "d"; "e"; "f"]%char "0"%char.

(** [n.toString(16)] for [0 <= n < 16 ^ digits]. *)
Fixpoint to_hex (digits : nat) (n : Z) : list Ascii.ascii :=
  match digits with
  | O => []
  | S digits' =>
      if n <? 16 then [hex_digit n]
      else to_hex digits' (n / 16) ++ [hex_digit (n mod 16)]
  end.

(** [hashString]: the unsigned 32-bit value, and its rendering. *)
Definition hash_value (codes : list Z) : Z := to_uint32 (hash_loop 5381 codes).

Definition hashString (codes : list Z) : list Ascii.ascii :=
  to_hex 8 (hash_value codes).

(** The hash the comments name: DJB2, [hash * 33 + c] from 5381. *)
Definition djb2 (codes : list Z) : Z :=
  foldl (λ hash c, hash * 33 + c) 5381 codes.

(** Reading a rendering in base 16 back. *)
Definition hex_value (a : Ascii.ascii) : Z :=
  let n := Z.of_N (Ascii.N_of_ascii a) in
  if (48 <=? n) && (n <=? 57) then n - 48 else n - 87.

Definition of_hex (digits : list Ascii.ascii) : Z :=
  foldl (λ acc a, acc * 16 + hex_value a) 0 digits.

End Fingerprint.

(** ** Pieces of a sample *)




(** ** Sample inputs *)

(** A generator state, a file of twenty bytes and a file of one
    mebibyte, used to instantiate the statements below. *)
Definition demo_rng : Sampler.Rng := λ i, N.of_nat (7 * i + 3).

Definition demo_bytes : list Byte.byte :=
  (λ i, byte_of (N.of_nat i)) <$> seq 1 20.

Definition mebibyte_of_zeros : list Byte.byte :=
  replicate (N.to_nat 1048576) Byte.x00.

Definition zeros (n : nat) : list Byte.byte := replicate n Byte.x00.

(** The first target whose square root in double precision is not the
    integer square root, [(2^26 + 1)^2 - 1], and a file of zeros one
    byte longer. *)
Definition petabyte_target : N := 4503599761588224.

Definition petabyte_file : list Byte.byte :=
  replicate (N.to_nat 4503599761588225) Byte.x00.

(** A cache of capacity 4 holding one entry of two bytes under key 1. *)
Definition half_full_cache : Cache.Cache :=
  Cache.run (Cache.new 4) [Cache.Put 1 (zeros 2)].

(** The scenario of the unit test [test_cache_lru]. *)
Definition lru_test_cache : Cache.Cache :=
  Cache.run (Cache.new 1024)
    [Cache.Put 1 (zeros 512); Cache.Put 2 (zeros 512); Cache.Put 3 (zeros 512)].

(** Two chunks written at the same offset of a buffer of four bytes. *)
Definition overlapping_chunks : list (Z * list Byte.byte) :=
  [(0%Z, [byte_of 1; byte_of 2]); (0%Z, [byte_of 3; byte_of 4])].

(** A session whose decoders reject every byte string, with no stored
    file and an empty cache. *)
Definition reject_message : list Byte.byte → option Session.Message :=
  λ _, None.
Definition reject_request : list Byte.byte → option Session.SampleRequestPayload :=
  λ _, None.
Definition constant_key : string → N → N := λ _ _, 0.
Definition accept_control
  : Session.AppState → list Byte.byte → outcome unit * Session.AppState :=
  λ st _, (Ok (), st).
Definition empty_state : Session.AppState :=
  {| Session.files := FileManager.no_files "uploads";
     Session.cache := Cache.new 1024; Session.rng := demo_rng |}.

(** A session whose decoders take every frame for a sampling request
    of as many bytes as the frame is long, serving one stored file. *)
Definition request_message : list Byte.byte → option Session.Message :=
  λ bytes, Some {| Session.type_field := Session.SampleRequest;
                   Session.id := ""; Session.timestamp := 0;
                   Session.payload := bytes |}.
Definition request_of_length
  : list Byte.byte → option Session.SampleRequestPayload :=
  λ bytes, Some {| Session.sample_size := N.of_nat (length bytes);
                   Session.method := "uniform" |}.
Definition demo_state : Session.AppState :=
  {| Session.files := FileManager.holding "uploads" "file" demo_bytes;
     Session.cache := Cache.new 1024;
     Session.rng := demo_rng |}.

(** A session whose upload directory exists and is empty: under the
    identifier [.] the path is the directory itself, which can be
    opened but not mapped. *)
Definition directory_state : Session.AppState :=
  {| Session.files :=
       {| FileManager.upload_dir := "uploads";
          FileManager.at_path := λ path,
            if decide (path = "uploads/.") then FileManager.Unreadable
            else FileManager.NoSuchPath |};
     Session.cache := Cache.new 1024;
     Session.rng := demo_rng |}.

(** An operating system on which no file can be created or written. *)
Definition failing_create
  : string → (string → FileManager.PathState)
    → bool * (string → FileManager.PathState) :=
  λ _ paths, (false, paths).
Definition failing_write
  : string → list Byte.byte → (string → FileManager.PathState)
    → bool * (string → FileManager.PathState) :=
  λ _ _ paths, (false, paths).


(** * Properties *)

(** ** Arithmetic that does not wrap *)

Lemma wrap_small x : x < Usize.modulus → Usize.wrap x = x.
Proof. intros Hx. unfold Usize.wrap. by apply N.mod_small. Qed.

Lemma usize_add_small a b : a + b < Usize.modulus → Usize.add a b = a + b.
Proof. apply wrap_small. Qed.

Lemma usize_mul_small a b : a * b < Usize.modulus → Usize.mul a b = a * b.
Proof. apply wrap_small. Qed.

Lemma usize_sub_small a b :
  b ≤ a → a < Usize.modulus → Usize.sub a b = a - b.
Proof.
  intros Hba Ha. unfold Usize.sub, Usize.wrap.
  replace (a + Usize.modulus - b) with ((a - b) + 1 * Usize.modulus) by lia.
  rewrite N.Div0.mod_add. apply N.mod_small. lia.
Qed.

(** ** Outcomes of [try_map], [slice] and [spread] *)

Lemma try_map_Ok {A B} (f : A → outcome B) (g : A → B) xs :
  (∀ x, x ∈ xs → f x = Ok (g x)) → try_map f xs = Ok (g <$> xs).
Proof.
  induction xs as [|x xs IH]; intros Hf; simpl; [done|].
  rewrite (Hf x) by apply list_elem_of_here. simpl.
  rewrite IH by (intros y Hy; apply Hf; by apply list_elem_of_further).
  done.
Qed.

(** Every vector of offsets within the range is the outcome of the
    draws for some state of the generator. *)
Lemma every_draw_possible (draws : list N) (max_offset : N) :
  Forall (λ d, d ≤ max_offset) draws →
  try_map (λ i, Sampler.gen_range_inclusive (nth i draws 0) 0 max_offset)
    (seq 0 (length draws))
  = Ok draws.
Proof.
  intros Hall.
  rewrite (try_map_Ok _ (λ i, nth i draws 0)).
  - f_equal. apply list_eq. intros i. rewrite list_lookup_fmap.
    destruct (decide (i < length draws)%nat) as [Hi|Hi].
    + rewrite lookup_seq_lt by done. simpl.
      destruct (lookup_lt_is_Some_2 draws i Hi) as [d Hd].
      rewrite Hd. f_equal. by apply nth_lookup_Some with (d := 0) in Hd.
    + by rewrite lookup_seq_ge, lookup_ge_None_2 by lia.
  - intros i Hi%elem_of_seq. unfold Sampler.gen_range_inclusive.
    destruct (N.ltb_spec max_offset 0); [lia|].
    assert (nth i draws 0 ≤ max_offset).
    { rewrite Forall_lookup in Hall.
      destruct (lookup_lt_is_Some_2 draws i) as [d Hd]; [lia|].
      rewrite (nth_lookup_Some _ _ 0 _ Hd). by apply (Hall i). }
    rewrite N.mod_small by lia. f_equal; lia.
Qed.

Lemma slice_Ok {A} (l : list A) start end_ :
  start ≤ end_ → end_ ≤ N.of_nat (length l) →
  slice l start end_
  = Ok (take (N.to_nat (end_ - start)) (drop (N.to_nat start) l)).
Proof.
  intros H1 H2. unfold slice.
  destruct (N.ltb_spec end_ start); [lia|].
  destruct (N.ltb_spec (N.of_nat (length l)) end_); [lia|]. done.
Qed.

(** The loop over the indices [k, k+n) adds [j * window_size] at every
    index [j] of that range and leaves the others alone. *)
Lemma spread_spec window_size n : ∀ k (windows : list N),
  (k + n ≤ length windows)%nat →
  ∃ r, Sampler.spread window_size (seq k n) windows = Ok r
     ∧ length r = length windows
     ∧ ∀ j, r !! j =
         if decide (k ≤ j < k + n)%nat
         then (λ w, Usize.add w (Usize.mul (N.of_nat j) window_size)) <$> windows !! j
         else windows !! j.
Proof.
  induction n as [|n IH]; intros k windows Hlen; simpl.
  - exists windows. split_and!; [done..|]. intros j. case_decide; [lia|done].
  - destruct (lookup_lt_is_Some_2 windows k) as [w Hw]; [lia|].
    rewrite Hw.
    destruct (IH (S k)
      (<[k := Usize.add w (Usize.mul (N.of_nat k) window_size)]> windows))
      as (r & Hr & Hlr & Hj).
    { rewrite length_insert. lia. }
    exists r. split_and!; [done|by rewrite Hlr, length_insert|].
    intros j. rewrite Hj.
    destruct (decide (j = k)) as [->|Hne].
    + rewrite list_lookup_insert_eq by lia.
      repeat case_decide; try lia. by rewrite Hw.
    + rewrite list_lookup_insert_ne by done.
      repeat case_decide; try lia; done.
Qed.

Lemma StronglySorted_lookup_le (l : list N) i j x y :
  StronglySorted N.le l → (i ≤ j)%nat →
  l !! i = Some x → l !! j = Some y → x ≤ y.
Proof.
  intros Hs. revert i j. induction Hs as [|a l Hs IH Hall]; intros i j Hij Hi Hj.
  - by rewrite lookup_nil in Hi.
  - destruct i as [|i], j as [|j]; simpl in *; simplify_eq; try lia.
    + rewrite Forall_forall in Hall. apply Hall.
      by eapply list_elem_of_lookup_2.
    + eapply IH; [|done..]. lia.
Qed.

(** ** The file manager *)

Lemma mmap_file_holding (dir file_id : string) (bytes : list Byte.byte) :
  FileManager.mmap_file (FileManager.holding dir file_id bytes) file_id
  = Ok bytes.
Proof.
  unfold FileManager.mmap_file, FileManager.holding, FileManager.path_of.
  cbn [FileManager.at_path FileManager.upload_dir].
  by destruct (decide (FileManager.join dir file_id
                       = FileManager.join dir file_id)).
Qed.

(** ** The square root in double precision *)

Lemma usize_as_f64_exact n : n < 2 ^ 53 → Sampler.usize_as_f64 n = n.
Proof.
  intros Hn. unfold Sampler.usize_as_f64. by destruct (N.ltb_spec n (2 ^ 53)); [|lia].
Qed.

Lemma usize_as_f64_bounds n : 0 < n → 0 < Sampler.usize_as_f64 n ≤ 2 * n.
Proof.
  intros Hn. unfold Sampler.usize_as_f64.
  destruct (N.ltb_spec n (2 ^ 53)) as [|Hbig]; [lia|].
  set (shift := N.log2 n - 52).
  assert (Hp : 0 < 2 ^ shift) by (pose proof (N.pow_nonzero 2 shift); lia).
  assert (Hle : 2 ^ shift ≤ n).
  { transitivity (2 ^ N.log2 n).
    - apply N.pow_le_mono_r; [lia|]. unfold shift. lia.
    - apply N.log2_spec. lia. }
  pose proof (N.Div0.div_mod n (2 ^ shift)) as Hdm.
  pose proof (N.mod_upper_bound n (2 ^ shift)) as Hr.
  assert (Hq : 0 < n / 2 ^ shift) by (apply N.div_str_pos; lia).
  generalize dependent (n / 2 ^ shift). generalize dependent (n mod 2 ^ shift).
  generalize dependent (2 ^ shift). intros P HP HPn r Hr q Hdm Hq.
  destruct (_ || _); nia.
Qed.

Lemma f64_sqrt_trunc_bounds x :
  N.sqrt x ≤ Sampler.f64_sqrt_trunc x ≤ N.sqrt x + 1.
Proof.
  unfold Sampler.f64_sqrt_trunc.
  destruct (N.eqb_spec (N.sqrt x) 0) as [->|]; [lia|].
  destruct (_ <=? _); lia.
Qed.

Lemma N_sqrt_pos x : 0 < x → 0 < N.sqrt x.
Proof.
  intros Hx. pose proof (N.sqrt_spec x ltac:(lia)) as [_ Hhi]. simpl in Hhi.
  destruct (N.eq_dec (N.sqrt x) 0) as [Hz|]; [|lia].
  rewrite Hz in Hhi. lia.
Qed.

Lemma f64_sqrt_trunc_pos x : 0 < x → 0 < Sampler.f64_sqrt_trunc x.
Proof.
  intros Hx. pose proof (f64_sqrt_trunc_bounds x).
  pose proof (N_sqrt_pos x Hx). lia.
Qed.

(** Below [2^52] the rounded root never reaches the next integer: the
    cast yields the integer square root. *)
Lemma f64_sqrt_trunc_exact x : x < 2 ^ 52 → Sampler.f64_sqrt_trunc x = N.sqrt x.
Proof.
  intros Hx. unfold Sampler.f64_sqrt_trunc.
  destruct (N.eqb_spec (N.sqrt x) 0) as [->|Hs]; [done|].
  set (s := N.sqrt x) in *. set (e := N.log2 s).
  pose proof (N.sqrt_spec x ltac:(lia)) as [Hlo Hhi]. fold s in Hlo, Hhi.
  pose proof (N.log2_spec s ltac:(lia)) as [He1 He2]. fold e in He1, He2.
  assert (Hs26 : s < 2 ^ 26).
  { destruct (N.lt_ge_cases s (2 ^ 26)) as [|Hge]; [done|].
    assert (2 ^ 26 * 2 ^ 26 ≤ s * s) by (apply N.mul_le_mono; done).
    change (2 ^ 26 * 2 ^ 26) with (2 ^ 52) in *. lia. }
  assert (Hes : e ≤ 25).
  { destruct (N.le_gt_cases e 25) as [|Hgt]; [done|].
    assert (2 ^ 26 ≤ 2 ^ e) by (apply N.pow_le_mono_r; lia). lia. }
  set (k := 53 - e).
  assert (Hk : 2 * (s + 1) ≤ 2 ^ k).
  { transitivity (2 ^ (e + 2)).
    - rewrite N.pow_add_r. change (2 ^ 2) with 4.
      rewrite N.pow_succ_r' in He2. lia.
    - apply N.pow_le_mono_r; [lia|]. unfold k. lia. }
  rewrite N.pow_mul_r. set (P := 2 ^ k) in *.
  assert (HP : 0 < P) by (pose proof (N.pow_nonzero 2 k); lia).
  destruct (N.leb_spec (((s + 1) * P - 1) ^ 2) (x * (2 ^ 2) ^ k)) as [Hup|]; [|done].
  exfalso.
  replace ((2 ^ 2) ^ k) with (P * P) in Hup.
  2:{ unfold P. rewrite <- N.pow_mul_l. done. }
  rewrite N.pow_2_r in Hup.
  assert (Hm : ∃ m, (s + 1) * P = m + 1) by (exists ((s + 1) * P - 1); nia).
  destruct Hm as [m Hm]. rewrite Hm in Hup.
  replace (m + 1 - 1) with m in Hup by lia.
  assert (x + 1 ≤ (s + 1) * (s + 1)) by lia.
  nia.
Qed.

Lemma f64_sqrt_as_usize_exact n : n < 2 ^ 52 → Sampler.f64_sqrt_as_usize n = N.sqrt n.
Proof.
  intros Hn. unfold Sampler.f64_sqrt_as_usize.
  rewrite usize_as_f64_exact by (change (2 ^ 52) with 4503599627370496 in Hn;
    change (2 ^ 53) with 9007199254740992; lia).
  by apply f64_sqrt_trunc_exact.
Qed.

Lemma f64_sqrt_as_usize_pos n : 0 < n → 0 < Sampler.f64_sqrt_as_usize n.
Proof.
  intros Hn. apply f64_sqrt_trunc_pos. by apply usize_as_f64_bounds.
Qed.

Lemma f64_sqrt_as_usize_le n : 0 < n → Sampler.f64_sqrt_as_usize n ≤ n.
Proof.
  intros Hn.
  destruct (N.lt_ge_cases n (2 ^ 52)) as [Hsmall|Hbig].
  - rewrite f64_sqrt_as_usize_exact by done.
    pose proof (N.sqrt_spec n ltac:(lia)) as [Hlo _].
    pose proof (N_sqrt_pos n Hn). simpl in Hlo. nia.
  - unfold Sampler.f64_sqrt_as_usize.
    pose proof (usize_as_f64_bounds n Hn) as [Hx0 Hx].
    pose proof (f64_sqrt_trunc_bounds (Sampler.usize_as_f64 n)) as [_ Hw].
    pose proof (N.sqrt_spec (Sampler.usize_as_f64 n) ltac:(lia)) as [Hlo _]. simpl in Hlo.
    change (2 ^ 52) with 4503599627370496 in Hbig.
    assert (N.sqrt (Sampler.usize_as_f64 n) < n) by nia.
    lia.
Qed.

(** ** The sampling parameters *)

Section sampler_parameters.

Variable target_size : N.
Hypothesis target_pos : 0 < target_size.

Local Abbreviation window_size := (Sampler.window_size_of target_size).
Local Abbreviation windows_count := (target_size / window_size).

Lemma window_size_pos : 0 < window_size.
Proof. by apply f64_sqrt_as_usize_pos. Qed.

Lemma window_size_le_target : window_size ≤ target_size.
Proof. by apply f64_sqrt_as_usize_le. Qed.

Lemma windows_count_Ok :
  Sampler.windows_count_of target_size = Ok windows_count.
Proof.
  unfold Sampler.windows_count_of, checked_div.
  pose proof window_size_pos.
  destruct (N.eqb_spec window_size 0); [lia|done].
Qed.

Lemma windows_total_le_target : windows_count * window_size ≤ target_size.
Proof. rewrite N.mul_comm. apply N.Div0.mul_div_le. Qed.

Lemma windows_count_pos : 0 < windows_count.
Proof.
  apply N.div_str_pos.
  split; [apply window_size_pos|apply window_size_le_target].
Qed.

End sampler_parameters.

(** ** The window positions *)

Section window_positions.

Variables (rng : Sampler.Rng) (data_size target_size : N).
Hypothesis data_size_valid : Usize.valid data_size.
Hypothesis target_pos : 0 < target_size.
Hypothesis target_lt : target_size < data_size.

Local Abbreviation window_size := (Sampler.window_size_of target_size).
Local Abbreviation windows_count := (target_size / window_size).
Local Abbreviation max_offset :=
  (Sampler.max_offset_of data_size windows_count window_size).

Lemma max_offset_eq : max_offset = data_size - windows_count * window_size.
Proof.
  unfold Sampler.max_offset_of, Usize.saturating_sub.
  rewrite usize_mul_small; [done|].
  pose proof (windows_total_le_target target_size).
  unfold Usize.valid in data_size_valid. lia.
Qed.

(** The bound of the spreading step: the largest final offset leaves
    room for one whole window. *)
Lemma max_final_offset_bound :
  max_offset + (windows_count - 1) * window_size + window_size = data_size.
Proof.
  rewrite max_offset_eq.
  pose proof (windows_total_le_target target_size).
  pose proof (windows_count_pos target_size target_pos).
  nia.
Qed.

(** The draws, once sorted, and the final offsets derived from them. *)
Lemma window_offsets_spec :
  ∃ sorted offsets,
    Sampler.window_offsets rng data_size target_size = Ok offsets
    ∧ length sorted = N.to_nat windows_count
    ∧ length offsets = N.to_nat windows_count
    ∧ StronglySorted N.le sorted
    ∧ Forall (λ s, s ≤ max_offset) sorted
    ∧ ∀ j, offsets !! j = (λ s, s + N.of_nat j * window_size) <$> sorted !! j.
Proof.
  unfold Sampler.window_offsets.
  rewrite (windows_count_Ok target_size target_pos). simpl.
  set (draw := λ i : nat, 0 + rng i mod (max_offset - 0 + 1)).
  rewrite (try_map_Ok _ draw); last first.
  { intros i _. unfold Sampler.gen_range_inclusive.
    destruct (N.ltb_spec max_offset 0); [lia|done]. }
  simpl.
  set (draws := draw <$> seq 0 (N.to_nat windows_count)).
  assert (Hdraws : Forall (λ s, s ≤ max_offset) draws).
  { apply Forall_fmap, Forall_forall. intros i _. unfold draw. simpl.
    pose proof (N.mod_upper_bound (rng i) (max_offset - 0 + 1)). lia. }
  pose proof (merge_sort_Permutation N.le draws) as Hperm.
  assert (Hlen : length (Sampler.sort_unstable draws) = N.to_nat windows_count).
  { unfold Sampler.sort_unstable. rewrite Hperm.
    unfold draws. by rewrite length_fmap, length_seq. }
  destruct (spread_spec window_size (N.to_nat windows_count) 0
              (Sampler.sort_unstable draws)) as (offsets & Hsp & Hlo & Hj).
  { lia. }
  exists (Sampler.sort_unstable draws), offsets.
  assert (Hsorted_bound : Forall (λ s, s ≤ max_offset) (Sampler.sort_unstable draws)).
  { unfold Sampler.sort_unstable. by rewrite Hperm. }
  split_and!; [done|done|lia| |done|].
  - apply StronglySorted_merge_sort; apply _.
  - intros j. rewrite Hj. case_decide as Hrange.
    + destruct (Sampler.sort_unstable draws !! j) as [s|] eqn:Hs; [|done].
      simpl. f_equal.
      rewrite Forall_lookup in Hsorted_bound.
      specialize (Hsorted_bound j s Hs). simpl in Hsorted_bound.
      pose proof max_final_offset_bound.
      unfold Usize.valid in data_size_valid.
      assert (N.of_nat j * window_size ≤ (windows_count - 1) * window_size)
        by (apply N.mul_le_mono_r; lia).
      rewrite usize_mul_small by lia.
      rewrite usize_add_small by lia. done.
    + rewrite lookup_ge_None_2 by lia. done.
Qed.

End window_positions.

(** ** The sampler *)

Lemma extract_Ok (bytes : list Byte.byte) window_size offset :
  Usize.valid (N.of_nat (length bytes)) →
  offset + window_size ≤ N.of_nat (length bytes) →
  Sampler.extract bytes window_size offset
  = Ok (take (N.to_nat window_size) (drop (N.to_nat offset) bytes)).
Proof.
  intros Hv Hle. unfold Usize.valid in Hv. unfold Sampler.extract.
  rewrite usize_add_small by lia. rewrite N.min_l by done.
  rewrite slice_Ok by lia. do 2 f_equal. lia.
Qed.

Lemma length_concat_windows (bytes : list Byte.byte) window_size offsets :
  Forall (λ o, o + window_size ≤ N.of_nat (length bytes)) offsets →
  N.of_nat (length (concat
    ((λ o, take (N.to_nat window_size) (drop (N.to_nat o) bytes)) <$> offsets)))
  = N.of_nat (length offsets) * window_size.
Proof.
  induction 1 as [|o offsets Ho _ IH]; [done|].
  rewrite fmap_cons. cbn [concat length].
  rewrite length_app, Nat2N.inj_add, IH, length_take, length_drop. lia.
Qed.

Section uniform_sampling.

Variables (rng : Sampler.Rng) (bytes : list Byte.byte) (target_size : N).

Local Abbreviation data_size := (N.of_nat (length bytes)).
Local Abbreviation window_size := (Sampler.window_size_of target_size).
Local Abbreviation windows_count := (target_size / window_size).
Local Abbreviation max_offset :=
  (Sampler.max_offset_of data_size windows_count window_size).

Hypothesis data_size_valid : Usize.valid data_size.
Hypothesis target_pos : 0 < target_size.
Hypothesis target_lt : target_size < data_size.

(** Every final offset leaves room for a whole window, and two
    offsets at different positions are at least one window apart. *)
Lemma final_offsets_facts :
  ∃ offsets,
    Sampler.window_offsets rng data_size target_size = Ok offsets
    ∧ length offsets = N.to_nat windows_count
    ∧ (∀ j o, offsets !! j = Some o →
         o ≤ max_offset + (windows_count - 1) * window_size
         ∧ o + window_size ≤ data_size)
    ∧ (∀ i j oi oj, (i < j)%nat →
         offsets !! i = Some oi → offsets !! j = Some oj →
         oi + window_size ≤ oj).
Proof.
  destruct (window_offsets_spec rng data_size target_size)
    as (sorted & offsets & Hoff & Hls & Hlo & Hsorted & Hbound & Hj); [done..|].
  pose proof (max_final_offset_bound data_size target_size
                data_size_valid target_pos target_lt) as Hmax.
  rewrite Forall_lookup in Hbound.
  exists offsets. split_and!; [done..| |].
  - intros j o Ho. rewrite Hj in Ho.
    destruct (sorted !! j) as [s|] eqn:Hs; simplify_eq/=.
    pose proof (Hbound j s Hs) as Hsb. simpl in Hsb.
    apply lookup_lt_Some in Hs.
    assert (N.of_nat j * window_size ≤ (windows_count - 1) * window_size)
      by (apply N.mul_le_mono_r; lia).
    lia.
  - intros i j oi oj Hij Hi Hjj. rewrite Hj in Hi, Hjj.
    destruct (sorted !! i) as [si|] eqn:Hsi; simplify_eq/=.
    destruct (sorted !! j) as [sj|] eqn:Hsj; simplify_eq/=.
    assert (si ≤ sj)
      by (eapply (StronglySorted_lookup_le sorted i j); [done|lia|done..]).
    assert (N.of_nat i * window_size + window_size ≤ N.of_nat j * window_size)
      by nia.
    lia.
Qed.

(** The uniform branch returns the windows at the final offsets,
    each of them whole, in ascending order of offset. *)
Lemma sample_uniform_spec :
  ∃ offsets,
    Sampler.window_offsets rng data_size target_size = Ok offsets
    ∧ Sampler.sample rng bytes target_size =
        Ok {| Sampler.data := concat
                ((λ o, take (N.to_nat window_size) (drop (N.to_nat o) bytes))
                   <$> offsets);
              Sampler.metadata :=
                {| Sampler.original_size := data_size;
                   Sampler.sample_size := windows_count * window_size;
                   Sampler.method := "uniform" |} |}.
Proof.
  destruct final_offsets_facts as (offsets & Hoff & Hlen & Hin & _).
  exists offsets. split; [done|].
  unfold Sampler.sample.
  destruct (N.leb_spec data_size target_size); [lia|].
  rewrite Hoff. simpl.
  assert (Hall : Forall (λ o, o + window_size ≤ data_size) offsets).
  { apply Forall_lookup. intros j o Ho. by apply (Hin j o). }
  rewrite (try_map_Ok _
    (λ o, take (N.to_nat window_size) (drop (N.to_nat o) bytes))); last first.
  { intros o Ho. apply extract_Ok; [done|].
    rewrite Forall_forall in Hall. by apply Hall. }
  simpl. rewrite length_concat_windows by done.
  rewrite Hlen, N2Nat.id. done.
Qed.

End uniform_sampling.

(** C5. When the file is not larger than the target, [sample] returns
    the file itself, byte for byte, tagged ["full"], and reports the
    file size both as original size and as sample size. *)
Theorem C5_small_file_returned_in_full
    (rng : Sampler.Rng) (bytes : list Byte.byte) (target_size : N) :
  N.of_nat (length bytes) ≤ target_size →
  Sampler.sample rng bytes target_size =
    Ok {| Sampler.data := bytes;
          Sampler.metadata :=
            {| Sampler.original_size := N.of_nat (length bytes);
               Sampler.sample_size := N.of_nat (length bytes);
               Sampler.method := "full" |} |}.
Proof.
  intros Hle. unfold Sampler.sample.
  destruct (N.leb_spec (N.of_nat (length bytes)) target_size); [done|lia].
Qed.

(** C1. For a file larger than a positive target, the sorted and
    spread offsets all leave room for a whole window inside the file:
    the largest possible final offset, [max_offset + (windows_count - 1)
    * window_size], is at most [data_size - window_size]; every window
    is extracted without failure and [sample] returns a result, neither
    an error nor a panic. *)
Theorem C1_windows_stay_inside_data
    (rng : Sampler.Rng) (bytes : list Byte.byte) (target_size : N) :
  Usize.valid (N.of_nat (length bytes)) →
  0 < target_size →
  target_size < N.of_nat (length bytes) →
  ∃ windows_count offsets chunks result,
    Sampler.windows_count_of target_size = Ok windows_count
    ∧ Sampler.window_offsets rng (N.of_nat (length bytes)) target_size = Ok offsets
    ∧ length offsets = N.to_nat windows_count
    ∧ Sampler.max_offset_of (N.of_nat (length bytes)) windows_count
          (Sampler.window_size_of target_size)
        + (windows_count - 1) * Sampler.window_size_of target_size
      ≤ N.of_nat (length bytes) - Sampler.window_size_of target_size
    ∧ Sampler.window_size_of target_size ≤ N.of_nat (length bytes)
    ∧ (∀ o, o ∈ offsets →
         o ≤ Sampler.max_offset_of (N.of_nat (length bytes)) windows_count
               (Sampler.window_size_of target_size)
             + (windows_count - 1) * Sampler.window_size_of target_size
         ∧ o + Sampler.window_size_of target_size ≤ N.of_nat (length bytes))
    ∧ try_map (Sampler.extract bytes (Sampler.window_size_of target_size)) offsets
      = Ok chunks
    ∧ Forall (λ c, N.of_nat (length c) = Sampler.window_size_of target_size) chunks
    ∧ Sampler.sample rng bytes target_size = Ok result.
Proof.
  intros Hv Hpos Hlt.
  destruct (final_offsets_facts rng bytes target_size Hv Hpos Hlt)
    as (offsets & Hoff & Hlen & Hin & _).
  destruct (sample_uniform_spec rng bytes target_size Hv Hpos Hlt)
    as (offsets' & Hoff' & Hsample).
  pose proof (max_final_offset_bound _ _ Hv Hpos Hlt) as Hmax.
  pose proof (window_size_le_target _ Hpos) as Hws.
  assert (Hall : ∀ o, o ∈ offsets →
    o + Sampler.window_size_of target_size ≤ N.of_nat (length bytes)).
  { intros o [j Ho]%list_elem_of_lookup. by apply (Hin j o). }
  eexists _, offsets, _, _.
  split_and!; [by apply windows_count_Ok|done|done|lia|lia| | | |exact Hsample].
  - intros o [j Ho]%list_elem_of_lookup. by apply (Hin j o).
  - apply (try_map_Ok _ (λ o, take (N.to_nat (Sampler.window_size_of target_size))
                                (drop (N.to_nat o) bytes))).
    intros o Ho. apply extract_Ok; [done|by apply Hall].
  - apply Forall_fmap, Forall_forall. intros o Ho. simpl.
    specialize (Hall o Ho). rewrite length_take, length_drop. lia.
Qed.

Lemma C1_witness :
  ∃ offsets result,
    Sampler.window_offsets demo_rng (N.of_nat (length demo_bytes)) 9 = Ok offsets
    ∧ (∀ o, o ∈ offsets → o + 3 ≤ 20)
    ∧ Sampler.sample demo_rng demo_bytes 9 = Ok result.
Proof.
  destruct (C1_windows_stay_inside_data demo_rng demo_bytes 9)
    as (wc & offsets & chunks & result & _ & Hoff & _ & _ & _ & Hin & _ & _ & Hs).
  - vm_compute. reflexivity.
  - vm_compute. reflexivity.
  - vm_compute. reflexivity.
  - exists offsets, result. split_and!; [exact Hoff| |exact Hs].
    intros o Ho. exact (proj2 (Hin o Ho)).
Defined.

(** The length of the output of the uniform branch. *)
Lemma uniform_output_length
    (rng : Sampler.Rng) (bytes : list Byte.byte) (target_size : N) :
  Usize.valid (N.of_nat (length bytes)) →
  0 < target_size →
  target_size < N.of_nat (length bytes) →
  ∃ result,
    Sampler.sample rng bytes target_size = Ok result
    ∧ N.of_nat (length (Sampler.data result))
      = (target_size / Sampler.window_size_of target_size)
        * Sampler.window_size_of target_size
    ∧ Sampler.sample_size (Sampler.metadata result)
      = N.of_nat (length (Sampler.data result))
    ∧ Sampler.method (Sampler.metadata result) = "uniform".
Proof.
  intros Hv Hpos Hlt.
  destruct (final_offsets_facts rng bytes target_size Hv Hpos Hlt)
    as (offsets & Hoff & Hlen & Hin & _).
  destruct (sample_uniform_spec rng bytes target_size Hv Hpos Hlt)
    as (offsets' & Hoff' & Hsample).
  assert (offsets' = offsets) as -> by congruence.
  assert (Hall : Forall (λ o,
    o + Sampler.window_size_of target_size ≤ N.of_nat (length bytes)) offsets).
  { apply Forall_lookup. intros j o Ho. by apply (Hin j o). }
  pose proof (length_concat_windows bytes _ offsets Hall) as Hconcat.
  rewrite Hlen, N2Nat.id in Hconcat.
  eexists. split; [exact Hsample|]. cbn [Sampler.data Sampler.metadata
    Sampler.sample_size Sampler.method].
  split_and!; [exact Hconcat|by rewrite Hconcat|done].
Qed.

(** C3, as stated, fails for a target of 4 503 599 761 588 224 bytes,
    one less than the square of [2^26 + 1], against a file one byte
    longer.  The integer square root of the target is [2^26], which
    divides it, so the stated length is the target itself; the double
    nearest to the exact root is [2^26 + 1], so the code cuts windows
    of [2^26 + 1] bytes, [2^26] of them, and returns [2^26] bytes
    less. *)
Lemma C3_counterexample :
  ∃ result,
    Sampler.sample demo_rng petabyte_file petabyte_target = Ok result
    ∧ (petabyte_target / N.sqrt petabyte_target) * N.sqrt petabyte_target
      = 4503599761588224
    ∧ N.of_nat (length (Sampler.data result)) = 4503599694479360
    ∧ N.of_nat (length (Sampler.data result))
      ≠ (petabyte_target / N.sqrt petabyte_target) * N.sqrt petabyte_target.
Proof.
  assert (Hlen : N.of_nat (length petabyte_file) = 4503599761588225).
  { unfold petabyte_file. rewrite length_replicate. apply N2Nat.id. }
  assert (Hw : Sampler.window_size_of petabyte_target = 67108865)
    by (vm_compute; reflexivity).
  assert (Hspec : (petabyte_target / N.sqrt petabyte_target)
                  * N.sqrt petabyte_target = 4503599761588224)
    by (vm_compute; reflexivity).
  destruct (uniform_output_length demo_rng petabyte_file petabyte_target)
    as (result & Hs & Hl & _).
  - unfold Usize.valid. rewrite Hlen. reflexivity.
  - reflexivity.
  - rewrite Hlen. reflexivity.
  - rewrite Hw in Hl.
    change (petabyte_target / 67108865 * 67108865) with 4503599694479360 in Hl.
    exists result. split_and!; [exact Hs|exact Hspec|exact Hl|].
    rewrite Hl, Hspec. discriminate.
Qed.

(** C3, for targets below [2^52].  For a file larger than such a
    positive target, the output of the uniform branch has exactly
    [windows_count * window_size] bytes, with [window_size] the integer
    square root of the target, which is what the code computes there,
    and [windows_count] the integer quotient of the target by it; this
    is at most the target.  For a file of 1 048 576 bytes and a target
    of 1024 that is 32 windows of 32 bytes, 1024 bytes in all. *)
Theorem C3_uniform_output_length
    (rng : Sampler.Rng) (bytes : list Byte.byte) (target_size : N) :
  Usize.valid (N.of_nat (length bytes)) →
  0 < target_size →
  target_size < 2 ^ 52 →
  target_size < N.of_nat (length bytes) →
  ∃ result,
    Sampler.sample rng bytes target_size = Ok result
    ∧ Sampler.window_size_of target_size = N.sqrt target_size
    ∧ Sampler.windows_count_of target_size = Ok (target_size / N.sqrt target_size)
    ∧ N.of_nat (length (Sampler.data result))
      = (target_size / N.sqrt target_size) * N.sqrt target_size
    ∧ Sampler.sample_size (Sampler.metadata result)
      = N.of_nat (length (Sampler.data result))
    ∧ Sampler.method (Sampler.metadata result) = "uniform"
    ∧ N.of_nat (length (Sampler.data result)) ≤ target_size
    ∧ (N.of_nat (length bytes) = 1048576 → target_size = 1024 →
         N.sqrt target_size = 32
         ∧ target_size / N.sqrt target_size = 32
         ∧ length (Sampler.data result) = 1024%nat).
Proof.
  intros Hv Hpos Hsmall Hlt.
  destruct (uniform_output_length rng bytes target_size Hv Hpos Hlt)
    as (result & Hsample & Hlength & Hmeta & Hmethod).
  pose proof (windows_total_le_target target_size) as Htot.
  pose proof (windows_count_Ok target_size Hpos) as Hcount.
  assert (Sampler.window_size_of target_size = N.sqrt target_size) as Hroot
    by (by apply f64_sqrt_as_usize_exact).
  rewrite Hroot in Hlength, Htot, Hcount.
  exists result.
  split_and!; [exact Hsample|exact Hroot|exact Hcount|exact Hlength
              |exact Hmeta|exact Hmethod|by rewrite Hlength|].
  intros _ ->.
  change (N.sqrt 1024) with 32 in *.
  change (1024 / 32) with 32 in *. split_and!; [done..|lia].
Qed.

Lemma C3_witness :
  ∃ result,
    Sampler.sample demo_rng mebibyte_of_zeros 1024 = Ok result
    ∧ length (Sampler.data result) = 1024%nat.
Proof.
  destruct (C3_uniform_output_length demo_rng mebibyte_of_zeros 1024)
    as (result & Hs & _ & _ & _ & _ & _ & _ & Hconcrete).
  - vm_compute. reflexivity.
  - vm_compute. reflexivity.
  - vm_compute. reflexivity.
  - vm_compute. reflexivity.
  - exists result. split; [exact Hs|].
    apply Hconcrete; vm_compute; reflexivity.
Defined.

(** C4. For a file larger than a positive target, the windows that
    [sample] extracts start at the final offsets, and any two of them at
    positions [i < j] are disjoint: the first ends no later than the
    second starts. *)
Theorem C4_windows_pairwise_disjoint
    (rng : Sampler.Rng) (bytes : list Byte.byte) (target_size : N) :
  Usize.valid (N.of_nat (length bytes)) →
  0 < target_size →
  target_size < N.of_nat (length bytes) →
  ∃ offsets result,
    Sampler.window_offsets rng (N.of_nat (length bytes)) target_size = Ok offsets
    ∧ length offsets = N.to_nat (target_size / Sampler.window_size_of target_size)
    ∧ Sampler.sample rng bytes target_size = Ok result
    ∧ Sampler.data result
      = concat ((λ o, take (N.to_nat (Sampler.window_size_of target_size))
                        (drop (N.to_nat o) bytes)) <$> offsets)
    ∧ ∀ i j oi oj, (i < j)%nat →
        offsets !! i = Some oi → offsets !! j = Some oj →
        oi + Sampler.window_size_of target_size ≤ oj
        ∧ Sampler.ranges_disjoint
            (Sampler.window_range (Sampler.window_size_of target_size) oi)
            (Sampler.window_range (Sampler.window_size_of target_size) oj).
Proof.
  intros Hv Hpos Hlt.
  destruct (final_offsets_facts rng bytes target_size Hv Hpos Hlt)
    as (offsets & Hoff & Hlen & _ & Hapart).
  destruct (sample_uniform_spec rng bytes target_size Hv Hpos Hlt)
    as (offsets' & Hoff' & Hsample).
  assert (offsets' = offsets) as -> by congruence.
  eexists offsets, _. split_and!; [done|done|exact Hsample|done|].
  intros i j oi oj Hij Hi Hj.
  pose proof (Hapart i j oi oj Hij Hi Hj) as Hle.
  split; [done|].
  unfold Sampler.ranges_disjoint, Sampler.window_range. simpl. intros x. lia.
Qed.

Lemma C4_witness :
  ∃ offsets,
    Sampler.window_offsets demo_rng (N.of_nat (length demo_bytes)) 9 = Ok offsets
    ∧ ∀ i j oi oj, (i < j)%nat →
        offsets !! i = Some oi → offsets !! j = Some oj → oi + 3 ≤ oj.
Proof.
  destruct (C4_windows_pairwise_disjoint demo_rng demo_bytes 9)
    as (offsets & result & Hoff & _ & _ & _ & Hd).
  - vm_compute. reflexivity.
  - vm_compute. reflexivity.
  - vm_compute. reflexivity.
  - exists offsets. split; [exact Hoff|].
    intros i j oi oj Hij Hi Hj. exact (proj1 (Hd i j oi oj Hij Hi Hj)).
Defined.

Lemma C5_witness :
  Sampler.sample demo_rng demo_bytes 20 =
    Ok {| Sampler.data := demo_bytes;
          Sampler.metadata :=
            {| Sampler.original_size := 20;
               Sampler.sample_size := 20;
               Sampler.method := "full" |} |}.
Proof.
  apply (C5_small_file_returned_in_full demo_rng demo_bytes 20).
  vm_compute. discriminate.
Defined.

(** C2. A target size of zero against a file that is not empty is not
    rejected: the window size is zero, the quotient [target_size /
    window_size] is evaluated and the sampler panics with a division by
    zero.  The synchronous endpoint checks the upper bound only, so the
    request reaches the sampler there as well. *)
Theorem C2_zero_target_divides_by_zero
    (rng : Sampler.Rng) (b : Byte.byte) (bytes : list Byte.byte)
    (make_key : string → N → N) (max_sample_size capacity : N)
    (upload_dir file_id method : string) :
  Sampler.window_size_of 0 = 0
  ∧ Sampler.sample rng (b :: bytes) 0 = Panic DivideByZero
  ∧ (Session.sample_file make_key max_sample_size
       {| Session.files := FileManager.holding upload_dir file_id (b :: bytes);
          Session.cache := Cache.new capacity;
          Session.rng := rng |}
       file_id
       {| Session.sample_size := 0; Session.method := method |}).1
    = Panic DivideByZero.
Proof.
  split_and!; [done|done|].
  unfold Session.sample_file. cbn [Session.sample_size].
  destruct (N.ltb_spec max_sample_size 0); [lia|].
  unfold Session.perform_sampling, Cache.get, Cache.new.
  cbn [Cache.store Cache.map Session.cache].
  rewrite lookup_empty.
  unfold Session.mmap_file. cbn [Session.files].
  rewrite mmap_file_holding. done.
Qed.

(** ** The cache: sizes and deletions *)

Lemma stored_bytes_empty : Cache.stored_bytes ∅ = 0.
Proof. unfold Cache.stored_bytes. by rewrite map_fold_empty. Qed.

Lemma stored_bytes_insert (m : gmap N Cache.CacheEntry) k e :
  m !! k = None →
  Cache.stored_bytes (<[k := e]> m) = Cache.size e + Cache.stored_bytes m.
Proof.
  intros Hk. unfold Cache.stored_bytes.
  rewrite map_fold_insert_L; [done| |done].
  intros. lia.
Qed.

Lemma stored_bytes_delete (m : gmap N Cache.CacheEntry) k e :
  m !! k = Some e →
  Cache.stored_bytes m = Cache.size e + Cache.stored_bytes (delete k m).
Proof.
  intros Hk. unfold Cache.stored_bytes.
  rewrite (map_fold_delete_L _ _ k e m); [done| |done].
  intros. lia.
Qed.

Lemma stored_bytes_delete_le (m : gmap N Cache.CacheEntry) k :
  Cache.stored_bytes (delete k m) ≤ Cache.stored_bytes m.
Proof.
  destruct (m !! k) as [e|] eqn:Hk.
  - rewrite (stored_bytes_delete m k e Hk). lia.
  - by rewrite delete_id.
Qed.

Lemma lookup_delete_all keys : ∀ (m : gmap N Cache.CacheEntry) k,
  Cache.delete_all keys m !! k
  = if decide (k ∈ keys) then None else m !! k.
Proof.
  induction keys as [|k0 keys IH]; intros m k.
  - destruct (decide (k ∈ [])) as [Hin|_]; [by apply elem_of_nil in Hin|done].
  - unfold Cache.delete_all in *. cbn [foldl]. rewrite IH.
    destruct (decide (k = k0)) as [->|Hne].
    + rewrite lookup_delete_eq.
      destruct (decide (k0 ∈ keys)) as [?|?], (decide (k0 ∈ k0 :: keys)) as [?|?];
        try done; exfalso; set_solver.
    + rewrite lookup_delete_ne by done.
      destruct (decide (k ∈ keys)) as [?|?], (decide (k ∈ k0 :: keys)) as [?|?];
        try done; exfalso; set_solver.
Qed.

Lemma stored_bytes_delete_all_le keys : ∀ (m : gmap N Cache.CacheEntry),
  Cache.stored_bytes (Cache.delete_all keys m) ≤ Cache.stored_bytes m.
Proof.
  induction keys as [|k keys IH]; intros m; [done|].
  unfold Cache.delete_all in *. simpl.
  etransitivity; [apply IH|apply stored_bytes_delete_le].
Qed.

Lemma retain_ne_absent key (queue : list N) :
  key ∉ queue → Cache.retain_ne key queue = queue.
Proof.
  intros Hk. unfold Cache.retain_ne.
  induction queue as [|k queue IH]; [done|].
  rewrite filter_cons. case_decide as Hne.
  - f_equal. apply IH. set_solver.
  - exfalso. set_solver.
Qed.

Lemma elem_of_retain_ne key (queue : list N) k :
  k ∈ Cache.retain_ne key queue ↔ k ≠ key ∧ k ∈ queue.
Proof. unfold Cache.retain_ne. by rewrite list_elem_of_filter. Qed.

(** ** The eviction loop *)

(** The loop removes a prefix of the queue, the least recently used
    keys first, each of them only while the new entry does not fit, and
    it stops as soon as the entry fits or the queue is empty. *)
Lemma evict_spec capacity new_size : ∀ queue (m : gmap N Cache.CacheEntry),
  Cache.stored_bytes m + new_size < Usize.modulus →
  NoDup queue →
  (∀ k, k ∈ queue → is_Some (m !! k)) →
  ∃ evicted kept,
    queue = evicted ++ kept
    ∧ Cache.evict capacity new_size m (Cache.stored_bytes m) queue
      = {| Cache.map := Cache.delete_all evicted m;
           Cache.order := kept;
           Cache.total_size := Cache.stored_bytes (Cache.delete_all evicted m) |}
    ∧ (kept = [] ∨ Cache.stored_bytes (Cache.delete_all evicted m) + new_size ≤ capacity)
    ∧ (∀ e1 k e2, evicted = e1 ++ k :: e2 →
         capacity < Cache.stored_bytes (Cache.delete_all e1 m) + new_size).
Proof.
  induction queue as [|k rest IH]; intros m Hfit Hnd Hkeys.
  - exists [], []. split_and!; [done|done|by left|].
    intros e1 k e2 He. by destruct e1.
  - simpl. rewrite usize_add_small by done.
    destruct (N.ltb_spec capacity (Cache.stored_bytes m + new_size)) as [Hfull|Hok].
    + destruct (Hkeys k) as [e He]; [set_solver|]. rewrite He.
      pose proof (stored_bytes_delete m k e He) as Hdel.
      rewrite usize_sub_small by lia.
      replace (Cache.stored_bytes m - Cache.size e)
        with (Cache.stored_bytes (delete k m)) by lia.
      apply NoDup_cons in Hnd as [Hk Hnd].
      destruct (IH (delete k m)) as (evicted & kept & Hq & Hev & Hstop & Hnec).
      { lia. }
      { done. }
      { intros k' Hk'. rewrite lookup_delete_ne by set_solver. apply Hkeys. set_solver. }
      exists (k :: evicted), kept. split_and!.
      * by rewrite Hq.
      * exact Hev.
      * exact Hstop.
      * intros e1 k' e2 He1. destruct e1 as [|k1 e1]; simplify_eq/=.
        -- done.
        -- by apply (Hnec e1 k' e2).
    + exists [], (k :: rest). split_and!; [done|done|by right|].
      intros e1 k' e2 He1. by destruct e1.
Qed.

(** ** [put], step by step *)

Section cache_put.

Variables (c : Cache.Cache) (key : N) (bytes : list Byte.byte).
Hypothesis Hinv : Cache.invariant c.
Hypothesis Hrange : Cache.capacity c + N.of_nat (length bytes) < Usize.modulus.

Local Abbreviation new_size := (N.of_nat (length bytes)).
Local Abbreviation new_entry :=
  {| Cache.data := bytes; Cache.size := N.of_nat (length bytes) |}.
Local Abbreviation cleaned := (delete key (Cache.map (Cache.store c))).

Lemma remove_existing_spec :
  Cache.remove_existing key (Cache.store c)
  = {| Cache.map := cleaned;
       Cache.order := Cache.retain_ne key (Cache.order (Cache.store c));
       Cache.total_size := Cache.stored_bytes cleaned |}.
Proof.
  destruct Hinv as [Htot Hbound _ _ Hkeys].
  unfold Cache.remove_existing.
  destruct (Cache.map (Cache.store c) !! key) as [old|] eqn:Hold.
  - pose proof (stored_bytes_delete _ _ _ Hold) as Hdel.
    rewrite usize_sub_small by lia. f_equal. lia.
  - rewrite delete_id by done.
    rewrite retain_ne_absent.
    + destruct (Cache.store c); simpl in *. by f_equal.
    + rewrite Hkeys, Hold. by intros [? ?].
Qed.

(** What [put] does: the keys [evicted] are a prefix of the queue,
    each evicted because the entry did not fit yet; the entry is then
    appended as most recently used, or dropped when even the empty
    cache cannot hold it. *)
Lemma put_spec :
  ∃ evicted kept,
    Cache.retain_ne key (Cache.order (Cache.store c)) = evicted ++ kept
    ∧ (∀ e1 k e2, evicted = e1 ++ k :: e2 →
         Cache.capacity c
         < Cache.stored_bytes (Cache.delete_all e1 cleaned) + new_size)
    ∧ (kept = []
       ∨ Cache.stored_bytes (Cache.delete_all evicted cleaned) + new_size
         ≤ Cache.capacity c)
    ∧ Cache.store (Cache.put key bytes c)
      = if decide (Cache.stored_bytes (Cache.delete_all evicted cleaned) + new_size
                   ≤ Cache.capacity c)
        then {| Cache.map := <[key := new_entry]> (Cache.delete_all evicted cleaned);
                Cache.order := kept ++ [key];
                Cache.total_size :=
                  Cache.stored_bytes (Cache.delete_all evicted cleaned) + new_size |}
        else {| Cache.map := Cache.delete_all evicted cleaned;
                Cache.order := kept;
                Cache.total_size :=
                  Cache.stored_bytes (Cache.delete_all evicted cleaned) |}.
Proof.
  pose proof Hinv as [Htot Hbound _ Hnd Hkeys].
  assert (Hcl : Cache.stored_bytes cleaned ≤ Cache.capacity c).
  { etransitivity; [apply stored_bytes_delete_le|]. by rewrite <- Htot. }
  destruct (evict_spec (Cache.capacity c) new_size
              (Cache.retain_ne key (Cache.order (Cache.store c))) cleaned)
    as (evicted & kept & Hq & Hev & Hstop & Hnec).
  { lia. }
  { by apply NoDup_filter. }
  { intros k [Hne Hk]%elem_of_retain_ne.
    rewrite lookup_delete_ne by done. by apply Hkeys. }
  exists evicted, kept. split_and!; [done..|].
  unfold Cache.put. rewrite remove_existing_spec.
  cbn [Cache.map Cache.order Cache.total_size Cache.store].
  rewrite Hev. unfold Cache.insert_if_fits.
  cbn [Cache.map Cache.order Cache.total_size].
  pose proof (stored_bytes_delete_all_le evicted cleaned).
  rewrite usize_add_small by lia.
  destruct (N.leb_spec
    (Cache.stored_bytes (Cache.delete_all evicted cleaned) + new_size)
    (Cache.capacity c)); case_decide; try lia; done.
Qed.

Lemma put_capacity : Cache.capacity (Cache.put key bytes c) = Cache.capacity c.
Proof. done. Qed.

Lemma put_invariant : Cache.invariant (Cache.put key bytes c).
Proof.
  pose proof Hinv as [Htot Hbound Hsizes Hnd Hkeys].
  destruct put_spec as (evicted & kept & Hq & _ & Hstop & Hput).
  assert (Hndq : NoDup (evicted ++ kept)).
  { rewrite <- Hq. by apply NoDup_filter. }
  apply NoDup_app in Hndq as (Hnde & Hdisj & Hndk).
  assert (Hin : ∀ k, k ∈ evicted ++ kept ↔ k ≠ key ∧ k ∈ Cache.order (Cache.store c)).
  { intros k. by rewrite <- Hq, elem_of_retain_ne. }
  assert (Hlook : ∀ k, is_Some (Cache.delete_all evicted cleaned !! k) ↔ k ∈ kept).
  { intros k. rewrite lookup_delete_all.
    destruct (decide (k ∈ evicted)) as [Hev|Hev].
    - split; [by intros [? ?]|]. intros Hk. exfalso. by apply (Hdisj k).
    - destruct (decide (k = key)) as [->|Hne].
      + rewrite lookup_delete_eq. split; [by intros [? ?]|].
        intros Hk. exfalso.
        assert (key ∈ evicted ++ kept) as Hbad by set_solver.
        apply Hin in Hbad. naive_solver.
      + rewrite lookup_delete_ne by done. rewrite <- Hkeys.
        specialize (Hin k). set_solver. }
  assert (Hsz : ∀ k e, Cache.delete_all evicted cleaned !! k = Some e →
                  Cache.size e = N.of_nat (length (Cache.data e))).
  { intros k e. rewrite lookup_delete_all.
    destruct (decide (k ∈ evicted)) as [?|?]; [done|].
    destruct (decide (k = key)) as [->|Hne].
    - by rewrite lookup_delete_eq.
    - rewrite lookup_delete_ne by done. apply Hsizes. }
  assert (Hfresh : Cache.delete_all evicted cleaned !! key = None).
  { rewrite lookup_delete_all.
    destruct (decide (key ∈ evicted)) as [?|?]; [done|]. apply lookup_delete_eq. }
  pose proof (stored_bytes_delete_all_le evicted cleaned) as Hle1.
  pose proof (stored_bytes_delete_le (Cache.map (Cache.store c)) key) as Hle2.
  split; rewrite ?put_capacity, Hput; case_decide;
    cbn [Cache.map Cache.order Cache.total_size].
  - rewrite stored_bytes_insert by done. simpl. lia.
  - done.
  - lia.
  - lia.
  - intros k e. destruct (decide (k = key)) as [->|Hne].
    + rewrite lookup_insert_eq. by intros [= <-].
    + rewrite lookup_insert_ne by done. apply Hsz.
  - apply Hsz.
  - apply NoDup_app. split_and!; [done| |apply NoDup_singleton].
    intros k Hk ->%list_elem_of_singleton.
    assert (key ∈ evicted ++ kept) as Hbad by set_solver.
    apply Hin in Hbad. naive_solver.
  - done.
  - intros k. rewrite elem_of_app, list_elem_of_singleton.
    destruct (decide (k = key)) as [->|Hne].
    + rewrite lookup_insert_eq. naive_solver.
    + rewrite lookup_insert_ne by done. rewrite Hlook. naive_solver.
  - intros k. by rewrite Hlook.
Qed.

(** An entry larger than the whole capacity empties the cache and is
    not stored. *)
Lemma put_oversize :
  Cache.capacity c < new_size →
  Cache.store (Cache.put key bytes c)
  = {| Cache.map := ∅; Cache.order := []; Cache.total_size := 0 |}.
Proof.
  intros Hbig.
  pose proof Hinv as [Htot Hbound Hsizes Hnd Hkeys].
  destruct put_spec as (evicted & kept & Hq & _ & Hstop & Hput).
  rewrite Hput. case_decide; [lia|].
  destruct Hstop as [->|?]; [|lia].
  assert (Hempty : Cache.delete_all evicted cleaned = ∅).
  { apply map_empty. intros k. rewrite lookup_delete_all.
    destruct (decide (k ∈ evicted)) as [Hev|Hev]; [done|].
    destruct (decide (k = key)) as [->|Hne]; [apply lookup_delete_eq|].
    rewrite lookup_delete_ne by done.
    destruct (Cache.map (Cache.store c) !! k) as [e|] eqn:He; [|done].
    exfalso. apply Hev.
    assert (k ∈ Cache.retain_ne key (Cache.order (Cache.store c))) as Hk.
    { apply elem_of_retain_ne. split; [done|]. apply Hkeys. by rewrite He. }
    rewrite Hq in Hk. set_solver. }
  rewrite Hempty. by rewrite stored_bytes_empty.
Qed.

End cache_put.

(** ** The invariant of the cache *)

Lemma new_invariant capacity : Cache.invariant (Cache.new capacity).
Proof.
  split; simpl.
  - by rewrite stored_bytes_empty.
  - lia.
  - intros k e. by rewrite lookup_empty.
  - apply NoDup_nil_2.
  - intros k. rewrite lookup_empty. split; [by intros ?%elem_of_nil|by intros [? ?]].
Qed.

Lemma clear_invariant c : Cache.invariant (Cache.clear c).
Proof. apply (new_invariant (Cache.capacity c)). Qed.

(** A hit moves the key to the back of the queue and changes nothing
    else; a miss changes nothing. *)
Lemma get_spec key c :
  Cache.get key c
  = match Cache.map (Cache.store c) !! key with
    | Some entry =>
        (Some (Cache.data entry),
         {| Cache.capacity := Cache.capacity c;
            Cache.store :=
              {| Cache.map := Cache.map (Cache.store c);
                 Cache.order :=
                   Cache.retain_ne key (Cache.order (Cache.store c)) ++ [key];
                 Cache.total_size := Cache.total_size (Cache.store c) |} |})
    | None => (None, c)
    end.
Proof. done. Qed.

Lemma get_invariant key c :
  Cache.invariant c → Cache.invariant (Cache.get key c).2.
Proof.
  intros [Htot Hbound Hsizes Hnd Hkeys]. rewrite get_spec.
  destruct (Cache.map (Cache.store c) !! key) as [entry|] eqn:Hentry;
    [|by split].
  split; simpl; [done..| |].
  - apply NoDup_app. split_and!.
    + by apply NoDup_filter.
    + intros k [Hne _]%elem_of_retain_ne ?%list_elem_of_singleton. done.
    + apply NoDup_singleton.
  - intros k. rewrite elem_of_app, elem_of_retain_ne, list_elem_of_singleton.
    rewrite Hkeys. destruct (decide (k = key)) as [->|Hne].
    + rewrite Hentry. naive_solver.
    + naive_solver.
Qed.

Lemma step_capacity c o : Cache.capacity (Cache.step c o) = Cache.capacity c.
Proof.
  destruct o as [key|key bytes|]; simpl; [|done..].
  rewrite get_spec. by destruct (Cache.map (Cache.store c) !! key).
Qed.

Lemma step_invariant c o :
  Cache.invariant c → Cache.op_in_range (Cache.capacity c) o →
  Cache.invariant (Cache.step c o).
Proof.
  intros Hinv Hr. destruct o as [key|key bytes|]; simpl.
  - by apply get_invariant.
  - by apply put_invariant.
  - apply clear_invariant.
Qed.

Lemma run_invariant ops : ∀ c,
  Cache.invariant c → Forall (Cache.op_in_range (Cache.capacity c)) ops →
  Cache.invariant (Cache.run c ops)
  ∧ Cache.capacity (Cache.run c ops) = Cache.capacity c.
Proof.
  induction ops as [|o ops IH]; intros c Hinv Hall; [done|].
  apply Forall_cons in Hall as [Ho Hall].
  unfold Cache.run in *. simpl.
  destruct (IH (Cache.step c o)) as [Hi Hc].
  - by apply step_invariant.
  - by rewrite step_capacity.
  - split; [done|]. by rewrite Hc, step_capacity.
Qed.

(** C6 as stated fails: the cache of capacity 4 holds one entry; a
    [put] of five bytes under another key evicts it, so the number of
    entries drops from one to zero. *)
Lemma C6_counterexample :
  Cache.capacity half_full_cache < N.of_nat (length (zeros 5))
  ∧ Cache.entries (Cache.stats half_full_cache) = 1%nat
  ∧ Cache.entries (Cache.stats (Cache.put 2 (zeros 5) half_full_cache)) = 0%nat
  ∧ ¬ Cache.oversize_put_unnoticed half_full_cache 2 (zeros 5).
Proof.
  split_and!; [by vm_compute..|].
  intros [Hentries _]. vm_compute in Hentries. discriminate.
Qed.

(** C6, amended. After any sequence of [get], [put] and [clear] on a
    new cache, with every [put] in range, the size counter is the sum of
    the sizes of the stored entries and is at most the capacity.  A
    [put] of more bytes than the capacity is not stored: a following
    [get] of its key finds nothing, and since the loop has evicted
    every entry the cache is empty afterwards, so the number of entries
    is unchanged exactly when the cache was empty before. *)
Theorem C6_cache_within_capacity (capacity : N) (ops : list Cache.op) :
  Forall (Cache.op_in_range capacity) ops →
  Cache.invariant (Cache.run (Cache.new capacity) ops)
  ∧ Cache.stats_total_size (Cache.stats (Cache.run (Cache.new capacity) ops))
    = Cache.stored_bytes (Cache.map (Cache.store (Cache.run (Cache.new capacity) ops)))
  ∧ Cache.stats_total_size (Cache.stats (Cache.run (Cache.new capacity) ops))
    ≤ Cache.stats_capacity (Cache.stats (Cache.run (Cache.new capacity) ops))
  ∧ Cache.stats_capacity (Cache.stats (Cache.run (Cache.new capacity) ops)) = capacity
  ∧ ∀ key bytes,
      capacity < N.of_nat (length bytes) →
      capacity + N.of_nat (length bytes) < Usize.modulus →
      (Cache.get key
         (Cache.put key bytes (Cache.run (Cache.new capacity) ops))).1 = None
      ∧ Cache.entries
          (Cache.stats (Cache.put key bytes (Cache.run (Cache.new capacity) ops)))
        = 0%nat
      ∧ Cache.stats_total_size
          (Cache.stats (Cache.put key bytes (Cache.run (Cache.new capacity) ops)))
        = 0
      ∧ (Cache.entries
           (Cache.stats (Cache.put key bytes (Cache.run (Cache.new capacity) ops)))
         = Cache.entries (Cache.stats (Cache.run (Cache.new capacity) ops))
         ↔ Cache.entries (Cache.stats (Cache.run (Cache.new capacity) ops)) = 0%nat).
Proof.
  intros Hops.
  destruct (run_invariant ops (Cache.new capacity)) as [Hinv Hcap];
    [apply new_invariant|done|].
  simpl in Hcap.
  split_and!; [done|apply (Cache.inv_total _ Hinv)| |done|].
  { unfold Cache.stats. simpl. apply (Cache.inv_bound _ Hinv). }
  intros key bytes Hbig Hrange.
  pose proof (put_oversize (Cache.run (Cache.new capacity) ops) key bytes Hinv) as Hput.
  rewrite Hcap in Hput. specialize (Hput Hrange Hbig).
  unfold Cache.stats. rewrite get_spec, Hput. simpl.
  rewrite lookup_empty, map_size_empty. split_and!; [done..|].
  split; intros ->; done.
Qed.

Lemma C6_witness :
  Cache.stats_total_size (Cache.stats half_full_cache) ≤ 4
  ∧ (Cache.get 2 (Cache.put 2 (zeros 5) half_full_cache)).1 = None.
Proof.
  destruct (C6_cache_within_capacity 4 [Cache.Put 1 (zeros 2)])
    as (_ & _ & Hle & Hcap & Hbig).
  - repeat constructor.
  - split.
    + rewrite Hcap in Hle. exact Hle.
    + apply (Hbig 2 (zeros 5)); vm_compute; reflexivity.
Defined.

(** C7. On a cache reached from a new one by operations in range: a
    hit of [get] moves the key to the most recently used end of the
    queue and leaves the rest in order, a miss changes nothing; [put]
    first drops the entry stored under the key, then evicts a prefix of
    the queue, least recently used first and each key only while the
    new entry does not fit, and appends the new key as most recently
    used.  With capacity 1024, three entries of 512 bytes put under the
    keys 1, 2, 3 leave the keys 2 and 3 stored and key 1 evicted. *)
Theorem C7_eviction_is_lru
    (capacity : N) (ops : list Cache.op) (c : Cache.Cache)
    (key : N) (bytes : list Byte.byte) :
  Forall (Cache.op_in_range capacity) ops →
  c = Cache.run (Cache.new capacity) ops →
  capacity + N.of_nat (length bytes) < Usize.modulus →
  (∀ entry, Cache.map (Cache.store c) !! key = Some entry →
     (Cache.get key c).1 = Some (Cache.data entry)
     ∧ Cache.map (Cache.store (Cache.get key c).2) = Cache.map (Cache.store c)
     ∧ Cache.order (Cache.store (Cache.get key c).2)
       = Cache.retain_ne key (Cache.order (Cache.store c)) ++ [key])
  ∧ (Cache.map (Cache.store c) !! key = None → Cache.get key c = (None, c))
  ∧ (∃ evicted kept,
       Cache.retain_ne key (Cache.order (Cache.store c)) = evicted ++ kept
       ∧ (∀ e1 k e2, evicted = e1 ++ k :: e2 →
            capacity
            < Cache.stored_bytes
                (Cache.delete_all e1 (delete key (Cache.map (Cache.store c))))
              + N.of_nat (length bytes))
       ∧ (Cache.stored_bytes
            (Cache.delete_all evicted (delete key (Cache.map (Cache.store c))))
          + N.of_nat (length bytes) ≤ capacity →
          Cache.map (Cache.store (Cache.put key bytes c))
          = <[key := {| Cache.data := bytes;
                        Cache.size := N.of_nat (length bytes) |}]>
              (Cache.delete_all evicted (delete key (Cache.map (Cache.store c))))
          ∧ Cache.order (Cache.store (Cache.put key bytes c)) = kept ++ [key])
       ∧ (capacity
          < Cache.stored_bytes
              (Cache.delete_all evicted (delete key (Cache.map (Cache.store c))))
            + N.of_nat (length bytes) →
          kept = []
          ∧ Cache.map (Cache.store (Cache.put key bytes c))
            = Cache.delete_all evicted (delete key (Cache.map (Cache.store c)))
          ∧ Cache.order (Cache.store (Cache.put key bytes c)) = []))
  ∧ Cache.order (Cache.store lru_test_cache) = [2; 3]
  ∧ (Cache.get 1 lru_test_cache).1 = None
  ∧ (Cache.get 2 (Cache.get 1 lru_test_cache).2).1 = Some (zeros 512)
  ∧ (Cache.get 3 (Cache.get 2 (Cache.get 1 lru_test_cache).2).2).1
    = Some (zeros 512).
Proof.
  intros Hops -> Hrange.
  destruct (run_invariant ops (Cache.new capacity)) as [Hinv Hcap];
    [apply new_invariant|done|].
  simpl in Hcap.
  set (c := Cache.run (Cache.new capacity) ops) in *.
  split_and!.
  - intros entry Hentry. rewrite get_spec, Hentry. done.
  - intros Hnone. by rewrite get_spec, Hnone.
  - destruct (put_spec c key bytes Hinv) as (evicted & kept & Hq & Hnec & Hstop & Hput).
    { by rewrite Hcap. }
    rewrite Hcap in *.
    exists evicted, kept. split_and!; [done|done| |].
    + intros Hfit. rewrite Hput. by rewrite decide_True by done.
    + intros Hfull. rewrite Hput. rewrite decide_False by lia.
      destruct Hstop as [->|?]; [done|lia].
  - by vm_compute.
  - by vm_compute.
  - by vm_compute.
  - by vm_compute.
Qed.

Lemma C7_witness :
  Cache.get 2 half_full_cache = (None, half_full_cache)
  ∧ Cache.order (Cache.store (Cache.get 1 half_full_cache).2) = [1].
Proof.
  destruct (C7_eviction_is_lru 4 [Cache.Put 1 (zeros 2)] half_full_cache
              1 (zeros 3))
    as (Hhit & _).
  - repeat constructor.
  - reflexivity.
  - vm_compute. reflexivity.
  - destruct (C7_eviction_is_lru 4 [Cache.Put 1 (zeros 2)] half_full_cache
                2 (zeros 3))
      as (_ & Hmiss & _).
    + repeat constructor.
    + reflexivity.
    + vm_compute. reflexivity.
    + split.
      * apply Hmiss. vm_compute. reflexivity.
      * destruct (Hhit {| Cache.data := zeros 2; Cache.size := 2 |})
          as (_ & _ & Horder).
        -- vm_compute. reflexivity.
        -- rewrite Horder. vm_compute. reflexivity.
Defined.

(** ** The client: completion of a transfer *)

Lemma addChunk_spec offset chunk dm complete dm' :
  Client.addChunk offset chunk dm = Client.Return (complete, dm') →
  Client.totalSize dm' = Client.totalSize dm
  ∧ Client.onDataCallback dm' = Client.onDataCallback dm
  ∧ is_Some (Client.buffer dm')
  ∧ Client.receivedSize dm' = Client.receivedSize dm + N.of_nat (length chunk)
  ∧ complete
    = bool_decide (Client.totalSize dm
                   ≤ Client.receivedSize dm + N.of_nat (length chunk))
  ∧ length (Client.delivered dm')
    = (length (Client.delivered dm)
       + if complete && Client.onDataCallback dm then 1 else 0)%nat.
Proof.
  unfold Client.addChunk. intros H.
  destruct (Client.buffer dm) as [buf|]; [|done].
  destruct (Client.typed_array_set buf chunk offset) as [buf'|]; [|done].
  destruct (N.leb_spec (Client.totalSize dm)
              (Client.receivedSize dm + N.of_nat (length chunk)));
    simplify_eq/=.
  - rewrite bool_decide_eq_true_2 by done.
    split_and!; [done|done|by eexists|done|done|].
    destruct (Client.onDataCallback dm); [|simpl; lia].
    rewrite length_app. simpl. lia.
  - rewrite bool_decide_eq_false_2 by lia.
    split_and!; [done|done|by eexists|done|done|simpl; lia].
Qed.

(** After any run of calls that does not throw, the [i]-th call has
    reported completion exactly when the bytes received up to and
    including it reach the announced total. *)
Lemma addChunks_spec chunks : ∀ dm results dm',
  Client.addChunks chunks dm = Client.Return (results, dm') →
  Client.totalSize dm' = Client.totalSize dm
  ∧ Client.onDataCallback dm' = Client.onDataCallback dm
  ∧ Client.receivedSize dm' = Client.receivedSize dm + Client.total_length chunks
  ∧ length results = length chunks
  ∧ (∀ i, (i < length chunks)%nat →
       results !! i
       = Some (bool_decide
                 (Client.totalSize dm
                  ≤ Client.receivedSize dm
                    + Client.total_length (take (S i) chunks))))
  ∧ length (Client.delivered dm')
    = (length (Client.delivered dm)
       + if Client.onDataCallback dm then Client.completions results else 0)%nat.
Proof.
  induction chunks as [|[offset chunk] chunks IH]; intros dm results dm' H.
  - simpl in H. simplify_eq. simpl. split_and!; [done|done|lia|done| |].
    + intros i Hi. simpl in Hi. lia.
    + change (Client.completions []) with 0%nat.
      destruct (Client.onDataCallback dm'); lia.
  - simpl in H.
    destruct (Client.addChunk offset chunk dm) as [[complete dm1]|] eqn:H1; [|done].
    destruct (Client.addChunks chunks dm1) as [[results1 dm2]|] eqn:H2; [|done].
    simplify_eq.
    apply addChunk_spec in H1 as (Ht1 & Hc1 & _ & Hr1 & Hcomplete & Hd1).
    apply IH in H2 as (Ht2 & Hc2 & Hr2 & Hl2 & Hi2 & Hd2).
    split_and!.
    + congruence.
    + congruence.
    + rewrite Hr2, Hr1. simpl. lia.
    + simpl. by rewrite Hl2.
    + intros [|i] Hi; cbn [length] in Hi; cbn [lookup list_lookup].
      * change (take 1 ((offset, chunk) :: chunks)) with [(offset, chunk)].
        rewrite Hcomplete. do 2 f_equal. apply bool_decide_ext.
        unfold Client.total_length. simpl. lia.
      * rewrite Hi2 by lia. rewrite Ht1, Hr1. f_equal.
        apply bool_decide_ext.
        change (take (S (S i)) ((offset, chunk) :: chunks))
          with ((offset, chunk) :: take (S i) chunks).
        change (Client.total_length ((offset, chunk) :: take (S i) chunks))
          with (N.of_nat (length chunk) + Client.total_length (take (S i) chunks)).
        lia.
    + rewrite Hd2, Hd1, Hc1. unfold Client.completions.
      destruct (Client.onDataCallback dm); [|destruct complete; simpl; lia].
      rewrite filter_cons. destruct complete.
      * rewrite decide_True by done. simpl. lia.
      * rewrite decide_False by done. simpl. lia.
Qed.

Lemma total_length_take_lengths (cs1 : list (Z * list Byte.byte)) :
  ∀ (cs2 : list (Z * list Byte.byte)) n,
  (λ c, length c.2) <$> cs1 = (λ c, length c.2) <$> cs2 →
  Client.total_length (take n cs1) = Client.total_length (take n cs2).
Proof.
  induction cs1 as [|c1 cs1 IH]; intros [|c2 cs2] n Heq; simplify_eq/=; [done|].
  destruct n as [|n]; [done|]. simpl. unfold Client.total_length in *. simpl.
  rewrite (IH cs2 n) by done. congruence.
Qed.

(** C10. After [initialize(totalSize)], and as long as no call throws,
    the [i]-th [addChunk] returns [true] exactly when the lengths of the
    chunks added so far sum to at least [totalSize]; the registered
    callback has then been invoked once per [true] result, and never
    when none is registered.  The offsets play no part: runs whose
    chunks have the same lengths give the same results, and chunks
    written twice at the same offset complete a buffer whose tail was
    never written. *)
Theorem C10_completion_by_byte_count
    (total : N) (dm0 : Client.DataManager)
    (chunks : list (Z * list Byte.byte))
    (results : list bool) (dm' : Client.DataManager) :
  Client.addChunks chunks (Client.initialize total dm0)
  = Client.Return (results, dm') →
  length results = length chunks
  ∧ (∀ i, (i < length chunks)%nat →
       results !! i
       = Some (bool_decide (total ≤ Client.total_length (take (S i) chunks))))
  ∧ length (Client.delivered dm')
    = (length (Client.delivered dm0)
       + if Client.onDataCallback dm0 then Client.completions results else 0)%nat
  ∧ (∀ chunks2 results2 dm2,
       (λ c, length c.2) <$> chunks2 = (λ c, length c.2) <$> chunks →
       Client.addChunks chunks2 (Client.initialize total dm0)
       = Client.Return (results2, dm2) →
       results2 = results)
  ∧ Client.addChunks overlapping_chunks (Client.initialize 4 Client.constructor)
    = Client.Return
        ([false; true],
         {| Client.buffer := Some [byte_of 3; byte_of 4; Byte.x00; Byte.x00];
            Client.totalSize := 4;
            Client.receivedSize := 4;
            Client.onDataCallback := false;
            Client.delivered := [] |}).
Proof.
  intros Hrun.
  pose proof (addChunks_spec _ _ _ _ Hrun) as (_ & _ & _ & Hlen & Hres & Hdel).
  simpl in Hres, Hdel.
  split_and!; [done| |done| |done].
  - intros i Hi. rewrite (Hres i Hi). do 2 f_equal.
  - intros chunks2 results2 dm2 Hlens Hrun2.
    pose proof (addChunks_spec _ _ _ _ Hrun2) as (_ & _ & _ & Hlen2 & Hres2 & _).
    simpl in Hres2.
    assert (length chunks2 = length chunks) as Hl.
    { by rewrite <- (length_fmap (λ c, length c.2) chunks2), Hlens, length_fmap. }
    apply list_eq. intros i.
    destruct (decide (i < length chunks)%nat) as [Hi|Hi].
    + rewrite Hres by done. rewrite Hres2 by lia.
      by rewrite (total_length_take_lengths chunks2 chunks).
    + rewrite !lookup_ge_None_2 by lia. done.
Qed.

Lemma C10_witness :
  ∃ results dm',
    Client.addChunks overlapping_chunks
      (Client.initialize 4 (Client.onData Client.constructor))
    = Client.Return (results, dm')
    ∧ results !! 1%nat = Some true
    ∧ length (Client.delivered dm') = Client.completions results.
Proof.
  eexists _, _. split; [vm_compute; reflexivity|].
  destruct (C10_completion_by_byte_count 4 (Client.onData Client.constructor)
              overlapping_chunks _ _ eq_refl) as (_ & Hres & Hdel & _).
  split.
  - rewrite (Hres 1%nat); [reflexivity|vm_compute; lia].
  - exact Hdel.
Defined.

(** ** Streaming: the chunks tile the sample *)


(** With one unit of fuel more than there are bytes left, the loop
    ends normally, and what it queues tiles the rest of the sample. *)
Lemma stream_loop_spec (sample : list Byte.byte) :
  N.of_nat (length sample) ≤ Usize.ISIZE_MAX →
  ∀ fuel offset (tx : Stream.Sender),
    offset ≤ N.of_nat (length sample) →
    (N.to_nat (N.of_nat (length sample) - offset) < fuel)%nat →
    Stream.receiver_alive tx = true →
    ∃ msgs,
      Stream.stream_loop fuel sample (N.of_nat (length sample)) offset tx
      = Some (Ok (), {| Stream.receiver_alive := true;
                        Stream.sent := Stream.sent tx ++ (Stream.DataFrame <$> msgs) |})
      ∧ Stream.tiles sample (N.of_nat (length sample)) offset msgs.
Proof.
  intros Hmax.
  assert (Hbig : Usize.ISIZE_MAX + Stream.CHUNK_SIZE < Usize.modulus) by done.
  assert (Hchunk : 0 < Stream.CHUNK_SIZE) by done.
  induction fuel as [|fuel IH]; intros offset tx Hoff Hfuel Halive; [lia|].
  simpl.
  destruct (N.ltb_spec offset (N.of_nat (length sample))) as [Hlt|Hge].
  - rewrite usize_add_small by lia.
    set (end_ := N.min (offset + Stream.CHUNK_SIZE) (N.of_nat (length sample))).
    assert (Hend : offset < end_ ∧ end_ ≤ N.of_nat (length sample)
                   ∧ end_ - offset ≤ Stream.CHUNK_SIZE) by (unfold end_; lia).
    rewrite slice_Ok by lia.
    unfold Stream.send. rewrite Halive.
    destruct (IH end_
      {| Stream.receiver_alive := true;
         Stream.sent := Stream.sent tx ++
           [Stream.DataFrame
              {| Stream.offset := offset;
                 Stream.total := N.of_nat (length sample);
                 Stream.chunk := take (N.to_nat (end_ - offset))
                                   (drop (N.to_nat offset) sample) |}] |})
      as (msgs & Hloop & Htiles); [lia|lia|done|].
    eexists (_ :: msgs). split.
    + rewrite Hloop. simpl. by rewrite <- app_assoc.
    + simpl. rewrite length_take, length_drop.
      replace (N.to_nat (end_ - offset) `min` (length sample - N.to_nat offset))%nat
        with (N.to_nat (end_ - offset)) by lia.
      split_and!; [done|done|lia|lia|done|].
      replace (offset + N.of_nat (N.to_nat (end_ - offset))) with end_ by lia.
      done.
  - exists []. split.
    + simpl. rewrite app_nil_r. destruct tx; simpl in *. by subst.
    + simpl. lia.
Qed.

(** [stream_sample] never runs out of fuel: with a live consumer it
    queues the tiles of the sample, and once the consumer is gone it
    fails at the first chunk with [ConnectionClosed]. *)
Lemma stream_sample_total (sample : list Byte.byte) (tx : Stream.Sender) :
  N.of_nat (length sample) ≤ Usize.ISIZE_MAX →
  Stream.receiver_alive tx = true →
  ∃ msgs,
    Stream.stream_sample tx sample
    = Some (Ok (), {| Stream.receiver_alive := true;
                      Stream.sent := Stream.sent tx ++ (Stream.DataFrame <$> msgs) |})
    ∧ Stream.tiles sample (N.of_nat (length sample)) 0 msgs.
Proof.
  intros Hmax Halive. unfold Stream.stream_sample.
  apply stream_loop_spec; [done|lia|lia|done].
Qed.

Lemma stream_sample_closed (sample : list Byte.byte) (tx : Stream.Sender) :
  sample ≠ [] →
  N.of_nat (length sample) ≤ Usize.ISIZE_MAX →
  Stream.receiver_alive tx = false →
  Stream.stream_sample tx sample = Some (Err ConnectionClosed, tx).
Proof.
  intros Hne Hmax Hdead. unfold Stream.stream_sample.
  assert (Hbig : Usize.ISIZE_MAX + Stream.CHUNK_SIZE < Usize.modulus) by done.
  assert (Hchunk : 0 < Stream.CHUNK_SIZE) by done.
  cbn [Stream.stream_loop].
  destruct (N.ltb_spec 0 (N.of_nat (length sample))) as [Hlt|Hge].
  - rewrite usize_add_small by lia. rewrite slice_Ok by lia.
    unfold Stream.send. by rewrite Hdead.
  - destruct sample; [done|simpl in Hge; lia].
Qed.

(** ** The client: reassembly by offset *)










(** ** The wire: frames without an envelope *)



(** ** The session: a message that is not understood *)

(** C9. A binary frame that does not decode as an envelope, whose type
    is neither a sampling request nor a control message, or whose
    request payload does not decode, makes [handle_message] fail with
    [InvalidMessage] and the receiving task stop at once, whatever
    follows on the socket; nothing is handed to the sender on the way,
    so no error frame reaches the peer.  A control frame is passed to
    [handle_control_message], which has no access to the sender either. *)
Theorem C9_invalid_message_sends_nothing
    (decode_message : list Byte.byte → option Session.Message)
    (decode_sample_request : list Byte.byte → option Session.SampleRequestPayload)
    (make_key : string → N → N)
    (handle_control_message :
       Session.AppState → list Byte.byte → outcome unit * Session.AppState)
    (st : Session.AppState) (file_id : string) (bytes : list Byte.byte)
    (later : list Session.WsEvent) (tx : Stream.Sender) :
  (decode_message bytes = None
   ∨ (∃ msg, decode_message bytes = Some msg
             ∧ (Session.type_field msg = Session.Data
                ∨ Session.type_field msg = Session.Error))
   ∨ (∃ msg, decode_message bytes = Some msg
             ∧ Session.type_field msg = Session.SampleRequest
             ∧ decode_sample_request (Session.payload msg) = None)) →
  Session.handle_message decode_message decode_sample_request make_key
    handle_control_message st file_id bytes tx
  = Some (Err InvalidMessage, st, tx)
  ∧ Session.recv_task decode_message decode_sample_request make_key
      handle_control_message (Session.Binary bytes :: later) st file_id tx
    = Some (st, tx)
  ∧ (Stream.sent tx = [] →
     ∃ st' tx',
       Session.recv_task decode_message decode_sample_request make_key
         handle_control_message (Session.Binary bytes :: later) st file_id tx
       = Some (st', tx')
       ∧ Stream.error_frames (Stream.sent tx') = []
       ∧ length (Stream.error_frames (Stream.sent tx')) ≠ 1%nat).
Proof.
  intros Hbad.
  assert (Hmsg :
    Session.handle_message decode_message decode_sample_request make_key
      handle_control_message st file_id bytes tx
    = Some (Err InvalidMessage, st, tx)).
  { unfold Session.handle_message.
    destruct Hbad as [-> | [(msg & -> & [-> | ->]) | (msg & -> & -> & ->)]]; done. }
  assert (Hrecv :
    Session.recv_task decode_message decode_sample_request make_key
      handle_control_message (Session.Binary bytes :: later) st file_id tx
    = Some (st, tx)).
  { cbn [Session.recv_task]. by rewrite Hmsg. }
  split_and!; [done|done|].
  intros Hempty. exists st, tx. rewrite Hempty. done.
Qed.

Lemma C9_witness :
  Session.recv_task reject_message reject_request constant_key accept_control
    [Session.Binary [Byte.x00]; Session.Binary [Byte.x01]] empty_state
    "file" Stream.fresh_sender
  = Some (empty_state, Stream.fresh_sender).
Proof.
  apply (C9_invalid_message_sends_nothing reject_message reject_request
           constant_key accept_control empty_state "file" [Byte.x00]
           [Session.Binary [Byte.x01]] Stream.fresh_sender).
  left. reflexivity.
Defined.

(** * Further properties of the cache *)

(** What a [get] returns is the data stored under the key. *)
Lemma get_result key c :
  (Cache.get key c).1 = Cache.data <$> Cache.map (Cache.store c) !! key.
Proof. rewrite get_spec. by destruct (Cache.map (Cache.store c) !! key). Qed.

Lemma stored_bytes_singleton k e :
  Cache.stored_bytes {[ k := e ]} = Cache.size e.
Proof.
  rewrite <- insert_empty, stored_bytes_insert by apply lookup_empty.
  rewrite stored_bytes_empty. lia.
Qed.

(** A queue that ends with [k] and holds it once splits at [k] in one
    way only. *)
Lemma split_at_last (l e1 rest : list N) (k : N) :
  k ∉ l → l ++ [k] = e1 ++ k :: rest → rest = [] ∧ e1 = l.
Proof.
  intros Hk Heq.
  destruct rest as [|x rest _] using rev_ind.
  - split; [done|]. by apply app_inj_tail in Heq as [-> _].
  - exfalso. apply Hk.
    change (e1 ++ k :: rest ++ [x]) with (e1 ++ (k :: rest) ++ [x]) in Heq.
    rewrite app_assoc in Heq. apply app_inj_tail in Heq as [-> _].
    set_solver.
Qed.

Section cache_put_further.

Variables (c : Cache.Cache) (key : N) (bytes : list Byte.byte).
Hypothesis Hinv : Cache.invariant c.
Hypothesis Hrange : Cache.capacity c + N.of_nat (length bytes) < Usize.modulus.

Local Abbreviation new_size := (N.of_nat (length bytes)).
Local Abbreviation new_entry :=
  {| Cache.data := bytes; Cache.size := N.of_nat (length bytes) |}.
Local Abbreviation cleaned := (delete key (Cache.map (Cache.store c))).

(** The map after [put]: the new entry if it fits, on top of what the
    eviction has left of the other entries. *)
Lemma put_map :
  ∃ evicted kept,
    Cache.retain_ne key (Cache.order (Cache.store c)) = evicted ++ kept
    ∧ (∀ e1 k e2, evicted = e1 ++ k :: e2 →
         Cache.capacity c
         < Cache.stored_bytes (Cache.delete_all e1 cleaned) + new_size)
    ∧ (Cache.map (Cache.store (Cache.put key bytes c))
       = <[key := new_entry]> (Cache.delete_all evicted cleaned)
       ∨ Cache.capacity c < new_size
         ∧ Cache.map (Cache.store (Cache.put key bytes c)) = ∅).
Proof.
  destruct (put_spec c key bytes Hinv Hrange)
    as (evicted & kept & Hq & Hnec & Hstop & Hput).
  exists evicted, kept. split_and!; [done..|].
  destruct (decide (Cache.stored_bytes (Cache.delete_all evicted cleaned) + new_size
                    ≤ Cache.capacity c)) as [Hfit|Hfull].
  - left. by rewrite Hput.
  - right.
    destruct (decide (Cache.capacity c < new_size)) as [Hbig|Hsmall].
    + split; [done|]. by rewrite (put_oversize c key bytes Hinv Hrange Hbig).
    + exfalso. destruct Hstop as [->|?]; [|lia].
      assert (Cache.delete_all evicted cleaned = ∅) as Hempty.
      { apply map_empty. intros k. rewrite lookup_delete_all.
        destruct (decide (k ∈ evicted)) as [Hev|Hev]; [done|].
        destruct (decide (k = key)) as [->|Hne]; [apply lookup_delete_eq|].
        rewrite lookup_delete_ne by done.
        destruct (Cache.map (Cache.store c) !! k) as [e|] eqn:He; [|done].
        exfalso. apply Hev.
        assert (k ∈ Cache.retain_ne key (Cache.order (Cache.store c))) as Hk.
        { apply elem_of_retain_ne. split; [done|].
          apply (Cache.inv_keys _ Hinv). by rewrite He. }
        rewrite Hq in Hk. set_solver. }
      rewrite Hempty, stored_bytes_empty in Hfull. lia.
Qed.

(** An entry that is not larger than the capacity is stored. *)
Lemma put_get_same :
  new_size ≤ Cache.capacity c →
  (Cache.get key (Cache.put key bytes c)).1 = Some bytes.
Proof.
  intros Hsmall. rewrite get_result.
  destruct put_map as (evicted & kept & _ & _ & [-> | [Hbig _]]); [|lia].
  by rewrite lookup_insert_eq.
Qed.

(** Another key keeps its bytes or is evicted; it is never given other
    bytes. *)
Lemma put_get_other k :
  k ≠ key →
  (Cache.get k (Cache.put key bytes c)).1 = None
  ∨ (Cache.get k (Cache.put key bytes c)).1 = (Cache.get k c).1.
Proof.
  intros Hne. rewrite !get_result.
  destruct put_map as (evicted & kept & _ & _ & [-> | [_ ->]]).
  - rewrite lookup_insert_ne by done. rewrite lookup_delete_all.
    destruct (decide (k ∈ evicted)) as [?|?]; [by left|right].
    by rewrite lookup_delete_ne by done.
  - left. by rewrite lookup_empty.
Qed.

(** With room for the new entry nothing is evicted. *)
Lemma put_with_room k :
  Cache.total_size (Cache.store c) + new_size ≤ Cache.capacity c →
  k ≠ key →
  (Cache.get k (Cache.put key bytes c)).1 = (Cache.get k c).1.
Proof.
  intros Hroom Hne. rewrite !get_result.
  destruct put_map as (evicted & kept & _ & Hnec & [-> | [Hbig _]]); [|lia].
  rewrite lookup_insert_ne by done.
  destruct evicted as [|k0 evicted].
  - unfold Cache.delete_all. simpl. by rewrite lookup_delete_ne by done.
  - exfalso. specialize (Hnec [] k0 evicted eq_refl).
    unfold Cache.delete_all in Hnec. simpl in Hnec.
    pose proof (stored_bytes_delete_le (Cache.map (Cache.store c)) key).
    rewrite (Cache.inv_total _ Hinv) in Hroom. lia.
Qed.

End cache_put_further.

(** The entry read last is the last one to go: if it fits together with
    the new entry, a [put] under another key does not evict it. *)
Lemma put_after_get_keeps (c : Cache.Cache) (k key : N)
    (entry : Cache.CacheEntry) (bytes : list Byte.byte) :
  Cache.invariant c →
  Cache.capacity c + N.of_nat (length bytes) < Usize.modulus →
  Cache.map (Cache.store c) !! k = Some entry →
  k ≠ key →
  Cache.size entry + N.of_nat (length bytes) ≤ Cache.capacity c →
  (Cache.get k (Cache.put key bytes (Cache.get k c).2)).1
  = Some (Cache.data entry).
Proof.
  intros Hinv Hrange Hentry Hne Hfit.
  pose proof (get_invariant k c Hinv) as Hinv1.
  assert (Hmap1 : Cache.map (Cache.store (Cache.get k c).2)
                  = Cache.map (Cache.store c)).
  { rewrite get_spec, Hentry. done. }
  assert (Horder1 : Cache.order (Cache.store (Cache.get k c).2)
                    = Cache.retain_ne k (Cache.order (Cache.store c)) ++ [k]).
  { rewrite get_spec, Hentry. done. }
  assert (Hcap1 : Cache.capacity (Cache.get k c).2 = Cache.capacity c).
  { rewrite get_spec, Hentry. done. }
  rewrite get_result.
  destruct (put_map (Cache.get k c).2 key bytes Hinv1)
    as (evicted & kept & Hq & Hnec & Hmap).
  { by rewrite Hcap1. }
  rewrite Hmap1, Hcap1 in *.
  destruct Hmap as [-> | [Hbig _]]; [|lia].
  rewrite lookup_insert_ne by done. rewrite lookup_delete_all.
  destruct (decide (k ∈ evicted)) as [Hev|Hev];
    [|by rewrite lookup_delete_ne, Hentry by done].
  exfalso.
  apply list_elem_of_split in Hev as (e1 & e2 & ->).
  rewrite Horder1 in Hq. unfold Cache.retain_ne in Hq.
  rewrite filter_app, filter_cons_True, filter_nil in Hq by done.
  rewrite <- app_assoc in Hq. simpl in Hq.
  apply split_at_last in Hq as [_ He1]; last first.
  { rewrite !list_elem_of_filter. naive_solver. }
  specialize (Hnec e1 k e2 eq_refl).
  assert (Honly :
    Cache.delete_all e1 (delete key (Cache.map (Cache.store c)))
    = {[ k := entry ]}).
  { apply map_eq. intros k'. rewrite lookup_delete_all.
    destruct (decide (k' = k)) as [->|Hk'].
    - rewrite lookup_singleton_eq.
      destruct (decide (k ∈ e1)) as [Hin|_].
      + rewrite He1, !list_elem_of_filter in Hin. naive_solver.
      + by rewrite lookup_delete_ne.
    - rewrite lookup_singleton_ne by done.
      destruct (decide (k' ∈ e1)) as [_|Hnin]; [done|].
      destruct (decide (k' = key)) as [->|Hkey]; [apply lookup_delete_eq|].
      rewrite lookup_delete_ne by done.
      destruct (Cache.map (Cache.store c) !! k') as [e'|] eqn:He'; [|done].
      exfalso. apply Hnin. rewrite He1, !list_elem_of_filter.
      split_and!; [done..|]. apply (Cache.inv_keys _ Hinv). by rewrite He'. }
  rewrite Honly, stored_bytes_singleton in Hnec. lia.
Qed.

(** Put then get: on every cache reached from a new one, an entry of
    at most [capacity] bytes is stored by [put] and returned, byte for
    byte, by the [get] that follows. *)
Theorem cache_put_then_get (capacity : N) (ops : list Cache.op)
    (key : N) (bytes : list Byte.byte) :
  Forall (Cache.op_in_range capacity) ops →
  capacity + N.of_nat (length bytes) < Usize.modulus →
  N.of_nat (length bytes) ≤ capacity →
  (Cache.get key (Cache.put key bytes (Cache.run (Cache.new capacity) ops))).1
  = Some bytes.
Proof.
  intros Hops Hrange Hsmall.
  destruct (run_invariant ops (Cache.new capacity)) as [Hinv Hcap];
    [apply new_invariant|done|].
  simpl in Hcap. apply put_get_same; [done|by rewrite Hcap..].
Qed.

Lemma cache_put_then_get_witness :
  (Cache.get 1 (Cache.put 1 (zeros 3) half_full_cache)).1 = Some (zeros 3).
Proof.
  apply (cache_put_then_get 4 [Cache.Put 1 (zeros 2)] 1 (zeros 3)).
  - repeat constructor.
  - vm_compute. reflexivity.
  - vm_compute. discriminate.
Defined.

(** A [put] never changes the bytes stored under another key: that key
    is either evicted or returns what it returned before; and when the
    new entry fits into the free space, no other key is evicted. *)
Theorem cache_put_keeps_other_bytes (capacity : N) (ops : list Cache.op)
    (key k : N) (bytes : list Byte.byte) :
  Forall (Cache.op_in_range capacity) ops →
  capacity + N.of_nat (length bytes) < Usize.modulus →
  k ≠ key →
  ((Cache.get k (Cache.put key bytes (Cache.run (Cache.new capacity) ops))).1 = None
   ∨ (Cache.get k (Cache.put key bytes (Cache.run (Cache.new capacity) ops))).1
     = (Cache.get k (Cache.run (Cache.new capacity) ops)).1)
  ∧ (Cache.stats_total_size (Cache.stats (Cache.run (Cache.new capacity) ops))
     + N.of_nat (length bytes) ≤ capacity →
     (Cache.get k (Cache.put key bytes (Cache.run (Cache.new capacity) ops))).1
     = (Cache.get k (Cache.run (Cache.new capacity) ops)).1).
Proof.
  intros Hops Hrange Hne.
  destruct (run_invariant ops (Cache.new capacity)) as [Hinv Hcap];
    [apply new_invariant|done|].
  simpl in Hcap. split.
  - apply put_get_other; [done|by rewrite Hcap|done].
  - intros Hroom. apply put_with_room; [done|by rewrite Hcap| |done].
    by rewrite Hcap.
Qed.

Lemma cache_put_keeps_other_bytes_witness :
  (Cache.get 1 (Cache.put 2 (zeros 2) half_full_cache)).1
  = (Cache.get 1 half_full_cache).1.
Proof.
  apply (cache_put_keeps_other_bytes 4 [Cache.Put 1 (zeros 2)] 2 1 (zeros 2)).
  - repeat constructor.
  - vm_compute. reflexivity.
  - discriminate.
  - vm_compute. discriminate.
Defined.

(** Promotion by [get]: on every reachable cache, an entry that has
    just been read survives the next [put] under another key whenever
    the two entries fit into the capacity together, whatever else is
    stored. *)
Theorem cache_recently_read_survives (capacity : N) (ops : list Cache.op)
    (k key : N) (entry : Cache.CacheEntry) (bytes : list Byte.byte) :
  Forall (Cache.op_in_range capacity) ops →
  capacity + N.of_nat (length bytes) < Usize.modulus →
  Cache.map (Cache.store (Cache.run (Cache.new capacity) ops)) !! k = Some entry →
  k ≠ key →
  Cache.size entry + N.of_nat (length bytes) ≤ capacity →
  (Cache.get k
     (Cache.put key bytes
        (Cache.get k (Cache.run (Cache.new capacity) ops)).2)).1
  = Some (Cache.data entry).
Proof.
  intros Hops Hrange Hentry Hne Hfit.
  destruct (run_invariant ops (Cache.new capacity)) as [Hinv Hcap];
    [apply new_invariant|done|].
  simpl in Hcap. apply put_after_get_keeps; [done|by rewrite Hcap|done|done|].
  by rewrite Hcap.
Qed.

Lemma cache_recently_read_survives_witness :
  (Cache.get 1
     (Cache.put 3 (zeros 512)
        (Cache.get 1
           (Cache.run (Cache.new 1024)
              [Cache.Put 1 (zeros 512); Cache.Put 2 (zeros 512)])).2)).1
  = Some (zeros 512).
Proof.
  apply (cache_recently_read_survives 1024
           [Cache.Put 1 (zeros 512); Cache.Put 2 (zeros 512)] 1 3
           {| Cache.data := zeros 512; Cache.size := 512 |} (zeros 512)).
  - repeat constructor.
  - vm_compute. reflexivity.
  - vm_compute. reflexivity.
  - discriminate.
  - vm_compute. discriminate.
Defined.

(** * Further properties of the sampler *)

(** A target of zero against a file that is not empty is the one input
    on which the quotient is not defined. *)
Lemma window_offsets_zero_target rng data_size :
  Sampler.window_offsets rng data_size 0 = Panic DivideByZero.
Proof. done. Qed.

(** Windows at offsets that are one window apart or more, the first not
    before [k], form a subsequence of the file from [k] on. *)
Lemma windows_sublist (bytes : list Byte.byte) (window_size : nat) offsets :
  ∀ k : nat,
  (∀ o, o ∈ offsets → (k ≤ N.to_nat o)%nat) →
  (∀ i j oi oj, (i < j)%nat → offsets !! i = Some oi → offsets !! j = Some oj →
     (N.to_nat oi + window_size ≤ N.to_nat oj)%nat) →
  concat ((λ o, take window_size (drop (N.to_nat o) bytes)) <$> offsets)
    `sublist_of` drop k bytes.
Proof.
  induction offsets as [|o offsets IH]; intros k Hfrom Hapart.
  - apply sublist_nil_l.
  - rewrite fmap_cons. cbn [concat].
    assert (Hk : (k ≤ N.to_nat o)%nat) by (apply Hfrom; set_solver).
    transitivity (drop (N.to_nat o) bytes); last first.
    { replace (N.to_nat o) with (k + (N.to_nat o - k))%nat by lia.
      rewrite <- drop_drop. apply sublist_drop. }
    rewrite <- (take_drop window_size (drop (N.to_nat o) bytes)) at 2.
    apply sublist_app; [done|].
    rewrite drop_drop. apply IH.
    + intros o' [j Hj]%list_elem_of_lookup.
      apply (Hapart 0%nat (S j) o o'); [lia|done|done].
    + intros i j oi oj Hij Hi Hj.
      apply (Hapart (S i) (S j) oi oj); [lia|done|done].
Qed.

(** The facts about a returned sample, for the statements below. *)
Lemma sample_result_facts
    (rng : Sampler.Rng) (bytes : list Byte.byte) (target_size : N)
    (result : Sampler.SampleResult) :
  Usize.valid (N.of_nat (length bytes)) →
  Sampler.sample rng bytes target_size = Ok result →
  N.of_nat (length (Sampler.data result)) ≤ target_size
  ∧ Sampler.data result `sublist_of` bytes
  ∧ Sampler.original_size (Sampler.metadata result) = N.of_nat (length bytes)
  ∧ Sampler.sample_size (Sampler.metadata result)
    = N.of_nat (length (Sampler.data result))
  ∧ (N.of_nat (length bytes) ≤ target_size →
     Sampler.method (Sampler.metadata result) = "full"
     ∧ Sampler.data result = bytes)
  ∧ (target_size < N.of_nat (length bytes) →
     Sampler.method (Sampler.metadata result) = "uniform"
     ∧ N.of_nat (length (Sampler.data result)) < N.of_nat (length bytes)).
Proof.
  intros Hv Hsample.
  destruct (N.le_gt_cases (N.of_nat (length bytes)) target_size) as [Hle|Hgt].
  - unfold Sampler.sample in Hsample.
    destruct (N.leb_spec (N.of_nat (length bytes)) target_size); [|lia].
    simplify_eq/=. split_and!; [done|done|done|done|done|lia].
  - destruct (decide (target_size = 0)) as [->|Hpos].
    { unfold Sampler.sample in Hsample.
      destruct (N.leb_spec (N.of_nat (length bytes)) 0); [lia|].
      by rewrite window_offsets_zero_target in Hsample. }
    assert (0 < target_size) as Hpos' by lia.
    destruct (final_offsets_facts rng bytes target_size Hv Hpos' Hgt)
      as (offsets & Hoff & Hlen & Hin & Hapart).
    destruct (sample_uniform_spec rng bytes target_size Hv Hpos' Hgt)
      as (offsets' & Hoff' & Hsample').
    assert (offsets' = offsets) as -> by congruence.
    rewrite Hsample' in Hsample. simplify_eq/=.
    assert (Hall : Forall (λ o,
      o + Sampler.window_size_of target_size ≤ N.of_nat (length bytes)) offsets).
    { apply Forall_lookup. intros j o Ho. by apply (Hin j o). }
    pose proof (length_concat_windows bytes _ offsets Hall) as Hconcat.
    rewrite Hlen, N2Nat.id in Hconcat.
    pose proof (windows_total_le_target target_size) as Htot.
    split_and!; [lia| |done|done|lia|split; [done|lia]].
    apply (windows_sublist bytes _ offsets 0%nat).
    + intros o _. lia.
    + intros i j oi oj Hij Hi Hj.
      pose proof (Hapart i j oi oj Hij Hi Hj). lia.
Qed.

(** What [sample] returns, when it returns: at most [target_size]
    bytes, a subsequence of the file, described truthfully by the
    metadata, and tagged ["full"] exactly when it is the whole file. *)
Theorem sample_result_sound
    (rng : Sampler.Rng) (bytes : list Byte.byte) (target_size : N)
    (result : Sampler.SampleResult) :
  Usize.valid (N.of_nat (length bytes)) →
  Sampler.sample rng bytes target_size = Ok result →
  N.of_nat (length (Sampler.data result)) ≤ target_size
  ∧ Sampler.data result `sublist_of` bytes
  ∧ Sampler.original_size (Sampler.metadata result) = N.of_nat (length bytes)
  ∧ Sampler.sample_size (Sampler.metadata result)
    = N.of_nat (length (Sampler.data result))
  ∧ (N.of_nat (length bytes) ≤ target_size →
     Sampler.method (Sampler.metadata result) = "full"
     ∧ Sampler.data result = bytes)
  ∧ (target_size < N.of_nat (length bytes) →
     Sampler.method (Sampler.metadata result) = "uniform"
     ∧ N.of_nat (length (Sampler.data result)) < N.of_nat (length bytes)).
Proof. apply sample_result_facts. Qed.

Lemma sample_result_sound_witness :
  ∃ result,
    Sampler.sample demo_rng demo_bytes 9 = Ok result
    ∧ Sampler.data result `sublist_of` demo_bytes.
Proof.
  eexists. split; [vm_compute; reflexivity|].
  apply (sample_result_sound demo_rng demo_bytes 9 _).
  - vm_compute. reflexivity.
  - vm_compute. reflexivity.
Defined.

(** The truncation of the uniform branch costs fewer bytes than one
    window holds: the output is longer than [target_size - window_size],
    it is [target_size] less the remainder of the division by the
    window size, and a target that is a perfect square below [2^52],
    where its root is computed exactly, is met exactly. *)
Theorem sample_truncation_is_small
    (rng : Sampler.Rng) (bytes : list Byte.byte) (target_size : N) :
  Usize.valid (N.of_nat (length bytes)) →
  0 < target_size →
  target_size < N.of_nat (length bytes) →
  ∃ result,
    Sampler.sample rng bytes target_size = Ok result
    ∧ N.of_nat (length (Sampler.data result))
      = target_size - target_size mod Sampler.window_size_of target_size
    ∧ target_size < N.of_nat (length (Sampler.data result))
                    + Sampler.window_size_of target_size
    ∧ (∀ k, target_size = k * k → target_size < 2 ^ 52 →
         N.of_nat (length (Sampler.data result)) = target_size).
Proof.
  intros Hv Hpos Hlt.
  destruct (final_offsets_facts rng bytes target_size Hv Hpos Hlt)
    as (offsets & Hoff & Hlen & Hin & _).
  destruct (sample_uniform_spec rng bytes target_size Hv Hpos Hlt)
    as (offsets' & Hoff' & Hsample).
  assert (offsets' = offsets) as -> by congruence.
  assert (Hall : Forall (λ o,
    o + Sampler.window_size_of target_size ≤ N.of_nat (length bytes)) offsets).
  { apply Forall_lookup. intros j o Ho. by apply (Hin j o). }
  pose proof (length_concat_windows bytes _ offsets Hall) as Hconcat.
  rewrite Hlen, N2Nat.id in Hconcat.
  pose proof (window_size_pos target_size Hpos) as Hws.
  pose proof (N.Div0.div_mod target_size (Sampler.window_size_of target_size)) as Hdm.
  pose proof (N.mod_upper_bound target_size (Sampler.window_size_of target_size)) as Hmod.
  eexists. split; [exact Hsample|]. cbn [Sampler.data].
  rewrite Hconcat. split_and!; [lia|lia|].
  intros k -> Hsmall.
  assert (Sampler.window_size_of (k * k) = k) as Hk.
  { unfold Sampler.window_size_of.
    rewrite f64_sqrt_as_usize_exact by done. apply N.sqrt_square. }
  rewrite Hk in *. rewrite N.div_mul by lia. done.
Qed.

Lemma sample_truncation_is_small_witness :
  ∃ result,
    Sampler.sample demo_rng demo_bytes 10 = Ok result
    ∧ N.of_nat (length (Sampler.data result)) = 9.
Proof.
  destruct (sample_truncation_is_small demo_rng demo_bytes 10)
    as (result & Hs & Hlen & _).
  - vm_compute. reflexivity.
  - vm_compute. reflexivity.
  - vm_compute. reflexivity.
  - exists result. split; [exact Hs|]. rewrite Hlen. vm_compute. reflexivity.
Defined.

(** * Further properties of the streaming loop and the session *)

Lemma ceil_div_step (C d : N) :
  0 < C → 0 < d →
  (d - N.min C d + C - 1) / C + 1 = (d + C - 1) / C.
Proof.
  intros HC Hd. destruct (N.le_gt_cases d C) as [Hle|Hgt].
  - rewrite N.min_r by done.
    replace (d - d + C - 1) with (C - 1) by lia.
    rewrite N.div_small by lia.
    rewrite N.add_0_l. apply (N.div_unique _ _ 1 (d - 1)); lia.
  - rewrite N.min_l by lia.
    replace (d - C + C - 1) with (d - 1) by lia.
    replace (d + C - 1) with (d - 1 + 1 * C) by lia.
    rewrite N.div_add by lia. done.
Qed.

(** The frames of the loop, one by one: the [i]-th starts [i] chunk
    sizes after the first and is as long as what is left allows, up to
    the chunk size; their number is the quotient, rounded up, of what
    is left by the chunk size. *)
Lemma stream_loop_layout (sample : list Byte.byte) :
  N.of_nat (length sample) ≤ Usize.ISIZE_MAX →
  ∀ fuel offset (tx : Stream.Sender),
    offset ≤ N.of_nat (length sample) →
    (N.to_nat (N.of_nat (length sample) - offset) < fuel)%nat →
    Stream.receiver_alive tx = true →
    ∃ msgs,
      Stream.stream_loop fuel sample (N.of_nat (length sample)) offset tx
      = Some (Ok (), {| Stream.receiver_alive := true;
                        Stream.sent := Stream.sent tx ++ (Stream.DataFrame <$> msgs) |})
      ∧ N.of_nat (length msgs)
        = (N.of_nat (length sample) - offset + Stream.CHUNK_SIZE - 1)
          / Stream.CHUNK_SIZE
      ∧ ∀ i m, msgs !! i = Some m →
          Stream.offset m = offset + N.of_nat i * Stream.CHUNK_SIZE
          ∧ Stream.offset m < N.of_nat (length sample)
          ∧ Stream.total m = N.of_nat (length sample)
          ∧ Stream.chunk m
            = take (N.to_nat (N.min Stream.CHUNK_SIZE
                                (N.of_nat (length sample) - Stream.offset m)))
                (drop (N.to_nat (Stream.offset m)) sample).
Proof.
  intros Hmax.
  assert (Hbig : Usize.ISIZE_MAX + Stream.CHUNK_SIZE < Usize.modulus) by done.
  assert (Hchunk : 0 < Stream.CHUNK_SIZE) by done.
  induction fuel as [|fuel IH]; intros offset tx Hoff Hfuel Halive; [lia|].
  cbn [Stream.stream_loop].
  destruct (N.ltb_spec offset (N.of_nat (length sample))) as [Hlt|Hge].
  - rewrite usize_add_small by lia.
    set (end_ := N.min (offset + Stream.CHUNK_SIZE) (N.of_nat (length sample))).
    assert (Hend : end_ = offset + N.min Stream.CHUNK_SIZE
                                     (N.of_nat (length sample) - offset))
      by (unfold end_; lia).
    rewrite slice_Ok by lia.
    unfold Stream.send. rewrite Halive.
    destruct (IH end_
      {| Stream.receiver_alive := true;
         Stream.sent := Stream.sent tx ++
           [Stream.DataFrame
              {| Stream.offset := offset;
                 Stream.total := N.of_nat (length sample);
                 Stream.chunk := take (N.to_nat (end_ - offset))
                                   (drop (N.to_nat offset) sample) |}] |})
      as (msgs & Hloop & Hcount & Hlayout); [lia|lia|done|].
    eexists (_ :: msgs). split_and!.
    + rewrite Hloop. cbn [Stream.sent]. by rewrite <- app_assoc.
    + cbn [length]. rewrite Nat2N.inj_succ, Hcount, <- N.add_1_r.
      rewrite <- (ceil_div_step Stream.CHUNK_SIZE
                    (N.of_nat (length sample) - offset)) by lia.
      do 2 f_equal. lia.
    + intros [|i] m Hm; simpl in Hm.
      * simplify_eq. cbn [Stream.offset Stream.total Stream.chunk].
        split_and!; [lia|done|done|]. do 2 f_equal. lia.
      * destruct (Hlayout i m Hm) as (Ho & Hlt' & Ht & Hc).
        split_and!; [|done..].
        rewrite Ho.
        assert (end_ = offset + Stream.CHUNK_SIZE) as ->; [|lia].
        apply lookup_lt_Some in Hm. lia.
  - exists []. split_and!.
    + rewrite app_nil_r. destruct tx; simpl in *. by subst.
    + replace (N.of_nat (length sample) - offset) with 0 by lia.
      simpl. rewrite N.div_small by lia. done.
    + intros i m Hm. by rewrite lookup_nil in Hm.
Qed.

(** The layout of a stream: a sample of [N] bytes is sent as the
    quotient of [N] by 256 KiB, rounded up, frames; the [i]-th frame
    has offset [i] times 256 KiB, announces [N] and carries the bytes
    of the sample from its offset on, 256 KiB of them or, for the last
    frame, what is left. *)
Theorem stream_frame_layout (sample : list Byte.byte) :
  N.of_nat (length sample) ≤ Usize.ISIZE_MAX →
  ∃ msgs,
    Stream.stream_sample Stream.fresh_sender sample
    = Some (Ok (), {| Stream.receiver_alive := true;
                      Stream.sent := Stream.DataFrame <$> msgs |})
    ∧ N.of_nat (length msgs)
      = (N.of_nat (length sample) + Stream.CHUNK_SIZE - 1) / Stream.CHUNK_SIZE
    ∧ ∀ i m, msgs !! i = Some m →
        Stream.offset m = N.of_nat i * Stream.CHUNK_SIZE
        ∧ Stream.offset m < N.of_nat (length sample)
        ∧ Stream.total m = N.of_nat (length sample)
        ∧ Stream.chunk m
          = take (N.to_nat (N.min Stream.CHUNK_SIZE
                              (N.of_nat (length sample) - Stream.offset m)))
              (drop (N.to_nat (Stream.offset m)) sample).
Proof.
  intros Hmax.
  destruct (stream_loop_layout sample Hmax (S (length sample)) 0
              Stream.fresh_sender) as (msgs & Hloop & Hcount & Hlayout);
    [lia|lia|done|].
  exists msgs. split_and!.
  - exact Hloop.
  - by rewrite Hcount, N.sub_0_r.
  - intros i m Hm. destruct (Hlayout i m Hm) as (Ho & ? & ? & ?).
    split_and!; [by rewrite Ho|done..].
Qed.

Lemma stream_frame_layout_witness :
  ∃ msgs,
    Stream.stream_sample Stream.fresh_sender demo_bytes
    = Some (Ok (), {| Stream.receiver_alive := true;
                      Stream.sent := Stream.DataFrame <$> msgs |})
    ∧ N.of_nat (length msgs) = 1.
Proof.
  destruct (stream_frame_layout demo_bytes) as (msgs & Hs & Hcount & _).
  - vm_compute. discriminate.
  - exists msgs. split; [exact Hs|]. rewrite Hcount. vm_compute. reflexivity.
Defined.

(** Whatever the loop does, it only appends data frames to the queue
    and leaves the rest of the sender alone. *)
Lemma stream_loop_appends (sample : list Byte.byte) (total : N) :
  ∀ fuel offset (tx tx' : Stream.Sender) r,
    Stream.stream_loop fuel sample total offset tx = Some (r, tx') →
    ∃ msgs, Stream.sent tx' = Stream.sent tx ++ (Stream.DataFrame <$> msgs).
Proof.
  induction fuel as [|fuel IH]; intros offset tx tx' r Hloop; [done|].
  cbn [Stream.stream_loop] in Hloop.
  destruct (offset <? total).
  - destruct (slice sample offset _) as [chunk| |]; [|simplify_eq..].
    + unfold Stream.send in Hloop.
      destruct (Stream.receiver_alive tx).
      * apply IH in Hloop as (msgs & Hsent). cbn [Stream.sent] in Hsent.
        eexists (_ :: msgs). rewrite Hsent, <- app_assoc. done.
      * simplify_eq. exists []. by rewrite app_nil_r.
    + exists []. by rewrite app_nil_r.
    + exists []. by rewrite app_nil_r.
  - simplify_eq. exists []. by rewrite app_nil_r.
Qed.

Lemma error_frames_data (msgs : list Stream.DataMessage) :
  Stream.error_frames (Stream.DataFrame <$> msgs) = [].
Proof. induction msgs as [|m msgs IH]; [done|]. exact IH. Qed.

Section session_frames.

Variable decode_message : list Byte.byte → option Session.Message.
Variable decode_sample_request :
  list Byte.byte → option Session.SampleRequestPayload.
Variable make_key : string → N → N.
Variable handle_control_message :
  Session.AppState → list Byte.byte → outcome unit * Session.AppState.

Lemma handle_message_appends st file_id bytes tx r st' tx' :
  Session.handle_message decode_message decode_sample_request make_key
    handle_control_message st file_id bytes tx = Some (r, st', tx') →
  ∃ msgs, Stream.sent tx' = Stream.sent tx ++ (Stream.DataFrame <$> msgs).
Proof.
  unfold Session.handle_message. intros H.
  assert (Hsame : ∃ msgs : list Stream.DataMessage,
            Stream.sent tx = Stream.sent tx ++ (Stream.DataFrame <$> msgs))
    by (exists []; by rewrite app_nil_r).
  destruct (decode_message bytes) as [message|]; [|by simplify_eq].
  destruct (Session.type_field message); [| |by simplify_eq..].
  - destruct (decode_sample_request (Session.payload message)) as [request|];
      [|by simplify_eq].
    destruct (Session.perform_sampling make_key st file_id
                (Session.sample_size request)) as [[sample| |] st1];
      [|by simplify_eq..].
    destruct (Stream.stream_sample tx sample) as [[r1 tx1]|] eqn:Hs; [|done].
    simplify_eq. by apply stream_loop_appends in Hs.
  - destruct (handle_control_message st (Session.payload message)).
    by simplify_eq.
Qed.

Lemma recv_task_appends events : ∀ st file_id tx st' tx',
  Session.recv_task decode_message decode_sample_request make_key
    handle_control_message events st file_id tx = Some (st', tx') →
  ∃ msgs, Stream.sent tx' = Stream.sent tx ++ (Stream.DataFrame <$> msgs).
Proof.
  induction events as [|ev events IH]; intros st file_id tx st' tx' H.
  - simplify_eq/=. exists []. by rewrite app_nil_r.
  - destruct ev as [bytes| | |]; cbn [Session.recv_task] in H.
    + destruct (Session.handle_message _ _ _ _ st file_id bytes tx)
        as [[[r st1] tx1]|] eqn:Hm; [|done].
      apply handle_message_appends in Hm as (msgs1 & Hsent1).
      destruct r.
      * apply IH in H as (msgs2 & Hsent2).
        exists (msgs1 ++ msgs2). rewrite Hsent2, Hsent1, fmap_app, app_assoc. done.
      * simplify_eq. by exists msgs1.
      * simplify_eq. by exists msgs1.
    + simplify_eq. exists []. by rewrite app_nil_r.
    + by apply IH in H.
    + simplify_eq. exists []. by rewrite app_nil_r.
Qed.

End session_frames.

(** The receiving task never hands anything but data frames to the
    sender: whatever arrives on the socket, in whatever order and
    however the handlers fail, what was queued before stays queued and
    in order, data frames are appended to it, and the error frames in
    the queue are those that were there before. *)
Theorem session_queues_only_data_frames
    (decode_message : list Byte.byte → option Session.Message)
    (decode_sample_request : list Byte.byte → option Session.SampleRequestPayload)
    (make_key : string → N → N)
    (handle_control_message :
       Session.AppState → list Byte.byte → outcome unit * Session.AppState)
    (events : list Session.WsEvent) (st st' : Session.AppState)
    (file_id : string) (tx tx' : Stream.Sender) :
  Session.recv_task decode_message decode_sample_request make_key
    handle_control_message events st file_id tx = Some (st', tx') →
  (∃ msgs, Stream.sent tx' = Stream.sent tx ++ (Stream.DataFrame <$> msgs))
  ∧ Stream.error_frames (Stream.sent tx') = Stream.error_frames (Stream.sent tx).
Proof.
  intros Hrecv.
  apply recv_task_appends in Hrecv as (msgs & Hsent).
  split; [by exists msgs|].
  rewrite Hsent. unfold Stream.error_frames at 1.
  rewrite omap_app. fold (Stream.error_frames (Stream.sent tx)).
  fold (Stream.error_frames (Stream.DataFrame <$> msgs)).
  by rewrite error_frames_data, app_nil_r.
Qed.

Lemma session_queues_only_data_frames_witness :
  ∃ st' tx',
    Session.recv_task request_message request_of_length constant_key
      accept_control
      [Session.Binary (zeros 9); Session.Other; Session.Close]
      demo_state "file" Stream.fresh_sender
    = Some (st', tx')
    ∧ Stream.error_frames (Stream.sent tx') = [].
Proof.
  destruct (Session.recv_task request_message request_of_length constant_key
              accept_control
              [Session.Binary (zeros 9); Session.Other; Session.Close]
              demo_state "file" Stream.fresh_sender) as [[st' tx']|] eqn:Hrun.
  - exists st', tx'. split; [reflexivity|].
    apply (session_queues_only_data_frames request_message request_of_length
             constant_key accept_control _ demo_state st' "file"
             Stream.fresh_sender tx' Hrun).
  - vm_compute in Hrun. discriminate.
Defined.

(** ** The session and the cache *)

Lemma get_map key c :
  Cache.map (Cache.store (Cache.get key c).2) = Cache.map (Cache.store c).
Proof. rewrite get_spec. by destruct (Cache.map (Cache.store c) !! key). Qed.

Lemma get_miss key c :
  (Cache.get key c).1 = None → Cache.get key c = (None, c).
Proof.
  rewrite get_spec. by destruct (Cache.map (Cache.store c) !! key).
Qed.

(** A request that has been answered is answered from the cache from
    then on: if [perform_sampling] returned a sample that the cache can
    hold, the next call for the same file and size returns the same
    bytes, without reading the file or drawing again, so even when the
    file is gone. *)
Theorem sampling_answer_is_cached
    (make_key : string → N → N) (capacity : N) (ops : list Cache.op)
    (st st1 : Session.AppState) (file_id : string) (sample_size : N)
    (sample : list Byte.byte)
    (files' : FileManager.Files) (rng' : Sampler.Rng) :
  Forall (Cache.op_in_range capacity) ops →
  Session.cache st = Cache.run (Cache.new capacity) ops →
  Session.perform_sampling make_key st file_id sample_size = (Ok sample, st1) →
  N.of_nat (length sample) ≤ capacity →
  capacity + N.of_nat (length sample) < Usize.modulus →
  (Session.perform_sampling make_key
     {| Session.files := files'; Session.cache := Session.cache st1;
        Session.rng := rng' |} file_id sample_size).1
  = Ok sample.
Proof.
  intros Hops Hcache Hfirst Hsmall Hrange.
  destruct (run_invariant ops (Cache.new capacity)) as [Hinv Hcap];
    [apply new_invariant|done|].
  simpl in Hcap. rewrite <- Hcache in Hinv, Hcap.
  assert (Hhit : (Cache.get (make_key file_id sample_size) (Session.cache st1)).1
                 = Some sample).
  { unfold Session.perform_sampling in Hfirst.
    destruct (Cache.get (make_key file_id sample_size) (Session.cache st))
      as [[cached|] cache'] eqn:Hget.
    - simplify_eq/=. rewrite get_result.
      pose proof (get_map (make_key file_id sample_size) (Session.cache st)) as Hm.
      pose proof (get_result (make_key file_id sample_size) (Session.cache st)) as Hr.
      rewrite Hget in Hm, Hr. simpl in Hm, Hr. by rewrite Hm, <- Hr.
    - assert (cache' = Session.cache st) as ->.
      { pose proof (get_miss (make_key file_id sample_size) (Session.cache st)) as Hm.
        rewrite Hget in Hm. specialize (Hm eq_refl). congruence. }
      destruct (Session.mmap_file st file_id) as [mmap| |]; [|by simplify_eq..].
      destruct (Sampler.sample (Session.rng st) mmap sample_size)
        as [result| |]; simplify_eq/=.
      by apply put_get_same. }
  unfold Session.perform_sampling. cbn [Session.cache].
  destruct (Cache.get (make_key file_id sample_size) (Session.cache st1))
    as [[cached|] cache2]; simpl in Hhit; by simplify_eq.
Qed.

Lemma sampling_answer_is_cached_witness :
  ∃ sample st1,
    Session.perform_sampling constant_key demo_state "file" 9 = (Ok sample, st1)
    ∧ (Session.perform_sampling constant_key
         {| Session.files := FileManager.no_files "uploads";
            Session.cache := Session.cache st1;
            Session.rng := demo_rng |} "file" 9).1
      = Ok sample.
Proof.
  destruct (Session.perform_sampling constant_key demo_state "file" 9)
    as [[sample| |] st1] eqn:Hfirst;
    [|vm_compute in Hfirst; discriminate..].
  exists sample, st1. split; [reflexivity|].
  assert (sample = [byte_of 4; byte_of 5; byte_of 6; byte_of 9; byte_of 10;
                    byte_of 11; byte_of 17; byte_of 18; byte_of 19]) as Hs.
  { vm_compute in Hfirst. injection Hfirst as <- _. vm_compute. reflexivity. }
  apply (sampling_answer_is_cached constant_key 1024 [] demo_state st1
           "file" 9 sample (FileManager.no_files "uploads") demo_rng).
  - constructor.
  - reflexivity.
  - exact Hfirst.
  - rewrite Hs. vm_compute. discriminate.
  - rewrite Hs. vm_compute. reflexivity.
Defined.

(** ** The synchronous endpoint *)

(** What [sample_file] refuses: a size above [max_sample_size] is
    answered with [InvalidSampleSize], status 400, before the cache or
    the file system is looked at.  On a cache miss, an identifier whose
    path does not exist is answered with [FileNotFound], status 404,
    and one whose path exists but cannot be opened or mapped, as the
    upload directory itself under the identifier [.], with
    [FileAccess], status 403.  The state is what it was in all three
    cases. *)
Theorem sample_file_refusals
    (make_key : string → N → N) (max_sample_size : N)
    (st : Session.AppState) (file_id : string)
    (request : Session.SampleRequestPayload) :
  (max_sample_size < Session.sample_size request →
   Session.sample_file make_key max_sample_size st file_id request
   = (Err (InvalidSampleSize (Session.sample_size request)), st)
   ∧ Http.status (InvalidSampleSize (Session.sample_size request)) = 400)
  ∧ (Session.sample_size request ≤ max_sample_size →
     (Cache.get (make_key file_id (Session.sample_size request))
        (Session.cache st)).1 = None →
     FileManager.at_path (Session.files st)
       (FileManager.path_of (Session.files st) file_id)
     = FileManager.NoSuchPath →
     Session.sample_file make_key max_sample_size st file_id request
     = (Err (FileNotFound file_id), st)
     ∧ Http.status (FileNotFound file_id) = 404)
  ∧ (Session.sample_size request ≤ max_sample_size →
     (Cache.get (make_key file_id (Session.sample_size request))
        (Session.cache st)).1 = None →
     FileManager.at_path (Session.files st)
       (FileManager.path_of (Session.files st) file_id)
     = FileManager.Unreadable →
     Session.sample_file make_key max_sample_size st file_id request
     = (Err FileAccess, st)
     ∧ Http.status FileAccess = 403).
Proof.
  unfold Session.sample_file. split_and!.
  - intros Hbig.
    destruct (N.ltb_spec max_sample_size (Session.sample_size request)); [done|lia].
  - intros Hsmall Hmiss Hpath.
    destruct (N.ltb_spec max_sample_size (Session.sample_size request)); [lia|].
    unfold Session.perform_sampling. rewrite (get_miss _ _ Hmiss).
    unfold Session.mmap_file, FileManager.mmap_file. rewrite Hpath.
    by destruct st.
  - intros Hsmall Hmiss Hpath.
    destruct (N.ltb_spec max_sample_size (Session.sample_size request)); [lia|].
    unfold Session.perform_sampling. rewrite (get_miss _ _ Hmiss).
    unfold Session.mmap_file, FileManager.mmap_file. rewrite Hpath.
    by destruct st.
Qed.

Lemma sample_file_refusals_witness :
  Session.sample_file constant_key 8 demo_state "file"
    {| Session.sample_size := 9; Session.method := "uniform" |}
  = (Err (InvalidSampleSize 9), demo_state)
  ∧ Session.sample_file constant_key 16 demo_state "absent"
      {| Session.sample_size := 9; Session.method := "uniform" |}
    = (Err (FileNotFound "absent"), demo_state)
  ∧ Session.sample_file constant_key 16 directory_state "."
      {| Session.sample_size := 9; Session.method := "uniform" |}
    = (Err FileAccess, directory_state).
Proof.
  split_and!.
  - destruct (sample_file_refusals constant_key 8 demo_state "file"
                {| Session.sample_size := 9; Session.method := "uniform" |})
      as (Hlarge & _ & _).
    apply Hlarge. reflexivity.
  - destruct (sample_file_refusals constant_key 16 demo_state "absent"
                {| Session.sample_size := 9; Session.method := "uniform" |})
      as (_ & Hmissing & _).
    apply Hmissing.
    + vm_compute. discriminate.
    + vm_compute. reflexivity.
    + vm_compute. reflexivity.
  - destruct (sample_file_refusals constant_key 16 directory_state "."
                {| Session.sample_size := 9; Session.method := "uniform" |})
      as (_ & _ & Hdirectory).
    apply Hdirectory.
    + vm_compute. discriminate.
    + vm_compute. reflexivity.
    + vm_compute. reflexivity.
Defined.

(** What [sample_file] answers on a cache miss: at most the requested
    number of bytes, hence at most [max_sample_size], all of them bytes
    of the mapped file in their order; the answer is put into the cache
    under the key of the request and nothing else of the state changes
    but the generator. *)
Theorem sample_file_answer_bounded
    (make_key : string → N → N) (max_sample_size : N)
    (st st' : Session.AppState) (file_id : string)
    (request : Session.SampleRequestPayload)
    (bytes data : list Byte.byte) :
  (Cache.get (make_key file_id (Session.sample_size request))
     (Session.cache st)).1 = None →
  FileManager.at_path (Session.files st)
    (FileManager.path_of (Session.files st) file_id)
  = FileManager.Readable bytes →
  Usize.valid (N.of_nat (length bytes)) →
  Session.sample_file make_key max_sample_size st file_id request = (Ok data, st') →
  N.of_nat (length data) ≤ Session.sample_size request
  ∧ Session.sample_size request ≤ max_sample_size
  ∧ data `sublist_of` bytes
  ∧ Session.files st' = Session.files st
  ∧ Session.cache st'
    = Cache.put (make_key file_id (Session.sample_size request)) data
        (Session.cache st).
Proof.
  intros Hmiss Hfile Hv. unfold Session.sample_file.
  destruct (N.ltb_spec max_sample_size (Session.sample_size request));
    [done|].
  unfold Session.perform_sampling. rewrite (get_miss _ _ Hmiss).
  unfold Session.mmap_file, FileManager.mmap_file. rewrite Hfile.
  destruct (Sampler.sample (Session.rng st) bytes (Session.sample_size request))
    as [result| |] eqn:Hsample; [|done..].
  intros [= <- <-].
  destruct (sample_result_facts _ _ _ _ Hv Hsample) as (Hlen & Hsub & _).
  done.
Qed.

Lemma sample_file_answer_bounded_witness :
  ∃ data st',
    Session.sample_file constant_key 16 demo_state "file"
      {| Session.sample_size := 9; Session.method := "uniform" |}
    = (Ok data, st')
    ∧ N.of_nat (length data) ≤ 9.
Proof.
  destruct (Session.sample_file constant_key 16 demo_state "file"
              {| Session.sample_size := 9; Session.method := "uniform" |})
    as [[data| |] st'] eqn:Hrun; [|vm_compute in Hrun; discriminate..].
  exists data, st'. split; [reflexivity|].
  apply (sample_file_answer_bounded constant_key 16 demo_state st' "file"
           {| Session.sample_size := 9; Session.method := "uniform" |}
           demo_bytes data).
  - vm_compute. reflexivity.
  - vm_compute. reflexivity.
  - vm_compute. reflexivity.
  - exact Hrun.
Defined.

(** ** The upload *)

(** What [upload_file] refuses, whatever the operating system does: a
    first field larger than [max_file_size] is answered with
    [FileTooLarge], status 413, before any file is created, so the
    state is what it was, and the fields after it are never read; a
    body without fields is a [BadRequest], status 400.  A first field
    within the limit whose file cannot be created, or cannot be
    written, is answered with [FileAccess], status 403. *)
Theorem upload_refusals
    (create : string → (string → FileManager.PathState)
              → bool * (string → FileManager.PathState))
    (write_all : string → list Byte.byte → (string → FileManager.PathState)
                 → bool * (string → FileManager.PathState))
    (max_file_size : N) (fresh_id : string) (st : Session.AppState)
    (field : Handlers.Field) (others : list Handlers.Field) :
  (max_file_size < N.of_nat (length (Handlers.field_bytes field)) →
   Handlers.upload_file create write_all max_file_size fresh_id st
     (field :: others)
   = (Err (FileTooLarge (N.of_nat (length (Handlers.field_bytes field)))), st)
   ∧ Http.status (FileTooLarge (N.of_nat (length (Handlers.field_bytes field))))
     = 413)
  ∧ Handlers.upload_file create write_all max_file_size fresh_id st []
    = (Err (BadRequest "No file provided"), st)
  ∧ Http.status (BadRequest "No file provided") = 400
  ∧ (N.of_nat (length (Handlers.field_bytes field)) ≤ max_file_size →
     (create (FileManager.path_of (Session.files st) fresh_id)
        (FileManager.at_path (Session.files st))).1 = false
     ∨ (write_all (FileManager.path_of (Session.files st) fresh_id)
          (Handlers.field_bytes field)
          (create (FileManager.path_of (Session.files st) fresh_id)
             (FileManager.at_path (Session.files st))).2).1 = false →
     (Handlers.upload_file create write_all max_file_size fresh_id st
        (field :: others)).1 = Err FileAccess
     ∧ Http.status FileAccess = 403).
Proof.
  split_and!; [| done | done |].
  - intros Hbig. unfold Handlers.upload_file, FileManager.save_file.
    destruct (N.ltb_spec max_file_size
                (N.of_nat (length (Handlers.field_bytes field)))); [|lia].
    by destruct st.
  - intros Hsmall Hfails. split; [|done].
    unfold Handlers.upload_file, FileManager.save_file.
    destruct (N.ltb_spec max_file_size
                (N.of_nat (length (Handlers.field_bytes field)))); [lia|].
    destruct (create _ _) as [[|] paths]; cbn [fst snd] in Hfails.
    + destruct (write_all _ _ _) as [[|] paths'];
        cbn [fst] in Hfails; [|done].
      by destruct Hfails.
    + done.
Qed.

Lemma upload_refusals_witness :
  Handlers.upload_file failing_create failing_write 2 "id" demo_state
    [{| Handlers.field_name := "file"; Handlers.field_file_name := "big";
        Handlers.field_bytes := zeros 3 |};
     {| Handlers.field_name := "file"; Handlers.field_file_name := "small";
        Handlers.field_bytes := zeros 1 |}]
  = (Err (FileTooLarge 3), demo_state)
  ∧ (Handlers.upload_file failing_create failing_write 4 "id" demo_state
       [{| Handlers.field_name := "file"; Handlers.field_file_name := "big";
           Handlers.field_bytes := zeros 3 |}]).1
    = Err FileAccess.
Proof.
  destruct (upload_refusals failing_create failing_write 2 "id" demo_state
              {| Handlers.field_name := "file";
                 Handlers.field_file_name := "big";
                 Handlers.field_bytes := zeros 3 |}
              [{| Handlers.field_name := "file";
                  Handlers.field_file_name := "small";
                  Handlers.field_bytes := zeros 1 |}])
    as (Hlarge & _).
  destruct (upload_refusals failing_create failing_write 4 "id" demo_state
              {| Handlers.field_name := "file";
                 Handlers.field_file_name := "big";
                 Handlers.field_bytes := zeros 3 |} [])
    as (_ & _ & _ & Hfails).
  split.
  - apply Hlarge. vm_compute. reflexivity.
  - apply Hfails.
    + vm_compute. discriminate.
    + left. reflexivity.
Defined.

(** * Reassembly in any order *)








(** * The fingerprint hash *)

Section fingerprint.

Local Open Scope Z_scope.

Lemma to_int32_range x : - 2 ^ 31 ≤ Fingerprint.to_int32 x < 2 ^ 31.
Proof.
  unfold Fingerprint.to_int32.
  pose proof (Z.mod_pos_bound (x + 2 ^ 31) (2 ^ 32)). lia.
Qed.

Lemma to_int32_mod x : Fingerprint.to_int32 x mod 2 ^ 32 = x mod 2 ^ 32.
Proof.
  unfold Fingerprint.to_int32.
  pose proof (Z.div_mod (x + 2 ^ 31) (2 ^ 32)) as Hdm.
  replace ((x + 2 ^ 31) mod 2 ^ 32 - 2 ^ 31)
    with (x + - ((x + 2 ^ 31) / 2 ^ 32) * 2 ^ 32) by lia.
  apply Z_mod_plus_full.
Qed.

Lemma shl5_mod x : Fingerprint.shl5 x mod 2 ^ 32 = (32 * x) mod 2 ^ 32.
Proof.
  unfold Fingerprint.shl5. rewrite to_int32_mod, Z.shiftl_mul_pow2 by lia.
  change (2 ^ 5) with 32.
  pose proof (to_int32_mod x) as Hx.
  pose proof (Z.div_mod (Fingerprint.to_int32 x) (2 ^ 32)).
  pose proof (Z.div_mod x (2 ^ 32)).
  replace (Fingerprint.to_int32 x * 32)
    with (32 * x
          + 32 * (Fingerprint.to_int32 x / 2 ^ 32 - x / 2 ^ 32) * 2 ^ 32) by lia.
  apply Z_mod_plus_full.
Qed.

Lemma hash_step_mod h h' c :
  h mod 2 ^ 32 = h' mod 2 ^ 32 →
  (Fingerprint.shl5 h + h + c) mod 2 ^ 32 = (h' * 33 + c) mod 2 ^ 32.
Proof.
  intros Hh.
  pose proof (shl5_mod h) as Hs.
  pose proof (Z.div_mod (Fingerprint.shl5 h) (2 ^ 32)).
  pose proof (Z.div_mod (32 * h) (2 ^ 32)).
  pose proof (Z.div_mod h (2 ^ 32)).
  pose proof (Z.div_mod h' (2 ^ 32)).
  replace (Fingerprint.shl5 h + h + c)
    with (h' * 33 + c
          + (Fingerprint.shl5 h / 2 ^ 32 - 32 * h / 2 ^ 32
             + 33 * (h / 2 ^ 32 - h' / 2 ^ 32)) * 2 ^ 32) by lia.
  apply Z_mod_plus_full.
Qed.

Lemma hash_loop_mod codes : ∀ h h',
  h mod 2 ^ 32 = h' mod 2 ^ 32 →
  Fingerprint.hash_loop h codes mod 2 ^ 32
  = foldl (λ hash c, hash * 33 + c) h' codes mod 2 ^ 32.
Proof.
  induction codes as [|c codes IH]; intros h h' Hh; [done|].
  simpl. apply IH. by apply hash_step_mod.
Qed.

(** The magnitude of the loop variable grows by less than [2^31 + 2^16]
    with every code unit. *)
Lemma hash_loop_bound codes : ∀ h,
  Forall (λ c, 0 ≤ c ≤ 65535) codes →
  Z.abs (Fingerprint.hash_loop h codes)
  ≤ Z.abs h + Z.of_nat (length codes) * (2 ^ 31 + 65535).
Proof.
  induction codes as [|c codes IH]; intros h Hall.
  - simpl. lia.
  - apply Forall_cons in Hall as [Hc Hall]. cbn [Fingerprint.hash_loop].
    etransitivity; [apply (IH _ Hall)|].
    pose proof (to_int32_range (Z.shiftl (Fingerprint.to_int32 h) 5)).
    unfold Fingerprint.shl5. cbn [length]. lia.
Qed.

Lemma hex_value_digit d :
  0 ≤ d < 16 → Fingerprint.hex_value (Fingerprint.hex_digit d) = d.
Proof.
  intros Hd.
  assert (d = 0 ∨ d = 1 ∨ d = 2 ∨ d = 3 ∨ d = 4 ∨ d = 5 ∨ d = 6 ∨ d = 7
          ∨ d = 8 ∨ d = 9 ∨ d = 10 ∨ d = 11 ∨ d = 12 ∨ d = 13 ∨ d = 14
          ∨ d = 15) as Hcases by lia.
  repeat (destruct Hcases as [->|Hcases]; [reflexivity|]). by subst.
Qed.

Lemma of_hex_snoc l a :
  Fingerprint.of_hex (l ++ [a])
  = Fingerprint.of_hex l * 16 + Fingerprint.hex_value a.
Proof. unfold Fingerprint.of_hex. by rewrite foldl_app. Qed.

(** Rendering in base 16 and reading back, with enough digits. *)
Lemma of_hex_to_hex digits : ∀ n,
  0 ≤ n < 16 ^ Z.of_nat digits →
  Fingerprint.of_hex (Fingerprint.to_hex digits n) = n
  ∧ (length (Fingerprint.to_hex digits n) ≤ digits)%nat
  ∧ (0 < digits → 0 < length (Fingerprint.to_hex digits n))%nat.
Proof.
  induction digits as [|digits IH]; intros n Hn.
  - simpl in *. split_and!; [|done|lia].
    unfold Fingerprint.of_hex. simpl. lia.
  - cbn [Fingerprint.to_hex].
    destruct (Z.ltb_spec n 16) as [Hsmall|Hbig].
    + split_and!; [|simpl; lia..].
      unfold Fingerprint.of_hex. simpl. rewrite hex_value_digit by lia. done.
    + assert (0 ≤ n / 16 < 16 ^ Z.of_nat digits) as Hq.
      { rewrite Nat2Z.inj_succ, Z.pow_succ_r in Hn by lia.
        split; [apply Z.div_pos; lia|].
        apply Z.div_lt_upper_bound; lia. }
      destruct (IH _ Hq) as (Hval & Hlen & _).
      rewrite of_hex_snoc, Hval, length_app.
      rewrite hex_value_digit by (apply Z.mod_pos_bound; lia).
      split_and!; [|simpl; lia..].
      pose proof (Z.div_mod n 16). lia.
Qed.

End fingerprint.

(** [hashString] is DJB2 modulo [2^32]: for a name of at most [2^21]
    UTF-16 code units the loop variable stays well below [2^53], so the
    mixture of 32-bit shifts and double additions loses nothing; the
    value that is rendered is [hash * 33 + c], from 5381, reduced
    modulo [2^32]; and the rendering has one to eight digits in base 16
    that read back as that value. *)
Theorem hashString_is_djb2 (codes : list Z) :
  Forall (λ c, 0 ≤ c ≤ 65535)%Z codes →
  (Z.of_nat (length codes) ≤ 2 ^ 21)%Z →
  (∀ n, Z.abs (Fingerprint.hash_loop 5381 (take n codes)) + 2 ^ 31 + 65535
        < 2 ^ 53)%Z
  ∧ Fingerprint.hash_value codes = (Fingerprint.djb2 codes mod 2 ^ 32)%Z
  ∧ Fingerprint.of_hex (Fingerprint.hashString codes)
    = (Fingerprint.djb2 codes mod 2 ^ 32)%Z
  ∧ (1 ≤ length (Fingerprint.hashString codes) ≤ 8)%nat.
Proof.
  intros Hcodes Hlen.
  assert (Hvalue :
    Fingerprint.hash_value codes = (Fingerprint.djb2 codes mod 2 ^ 32)%Z).
  { unfold Fingerprint.hash_value, Fingerprint.to_uint32, Fingerprint.djb2.
    by apply hash_loop_mod. }
  assert (Hrange : (0 ≤ Fingerprint.hash_value codes < 16 ^ Z.of_nat 8)%Z).
  { rewrite Hvalue. apply Z.mod_pos_bound. lia. }
  destruct (of_hex_to_hex 8 _ Hrange) as (Hhex & Hle & Hge).
  split_and!.
  - intros n.
    pose proof (hash_loop_bound (take n codes) 5381) as Hb.
    assert (Forall (λ c, 0 ≤ c ≤ 65535)%Z (take n codes)) as Hall.
    { by apply Forall_take. }
    specialize (Hb Hall). rewrite length_take in Hb.
    assert (Z.of_nat (n `min` length codes) ≤ 2 ^ 21)%Z by lia.
    nia.
  - done.
  - unfold Fingerprint.hashString. by rewrite Hhex.
  - unfold Fingerprint.hashString. apply Hge. lia.
  - done.
Qed.

Lemma hashString_is_djb2_witness :
  Fingerprint.of_hex (Fingerprint.hashString [97; 46; 98; 105; 110]%Z)
  = (Fingerprint.djb2 [97; 46; 98; 105; 110] mod 2 ^ 32)%Z.
Proof.
  apply (hashString_is_djb2 [97; 46; 98; 105; 110]%Z).
  - repeat constructor; lia.
  - vm_compute. discriminate.
Defined.

(** * The session when the consumer is gone *)

(** Once the task that drains the queue has ended, a sampling request
    that yields a sample with at least one byte fails at the first
    chunk with [ConnectionClosed]; nothing is queued, the receiving
    task stops and reads no later frame.  An empty sample needs no
    send and is "streamed" successfully even then. *)
Theorem send_failure_ends_session
    (decode_message : list Byte.byte → option Session.Message)
    (decode_sample_request : list Byte.byte → option Session.SampleRequestPayload)
    (make_key : string → N → N)
    (handle_control_message :
       Session.AppState → list Byte.byte → outcome unit * Session.AppState)
    (st st' : Session.AppState) (file_id : string) (frame : list Byte.byte)
    (msg : Session.Message) (request : Session.SampleRequestPayload)
    (sample : list Byte.byte) (later : list Session.WsEvent)
    (tx : Stream.Sender) :
  decode_message frame = Some msg →
  Session.type_field msg = Session.SampleRequest →
  decode_sample_request (Session.payload msg) = Some request →
  Session.perform_sampling make_key st file_id (Session.sample_size request)
  = (Ok sample, st') →
  sample ≠ [] →
  N.of_nat (length sample) ≤ Usize.ISIZE_MAX →
  Stream.receiver_alive tx = false →
  Stream.stream_sample tx sample = Some (Err ConnectionClosed, tx)
  ∧ Session.handle_message decode_message decode_sample_request make_key
      handle_control_message st file_id frame tx
    = Some (Err ConnectionClosed, st', tx)
  ∧ Session.recv_task decode_message decode_sample_request make_key
      handle_control_message (Session.Binary frame :: later) st file_id tx
    = Some (st', tx)
  ∧ Stream.stream_sample tx [] = Some (Ok (), tx).
Proof.
  intros Hmsg Htype Hreq Hperform Hne Hmax Hdead.
  pose proof (stream_sample_closed sample tx Hne Hmax Hdead) as Hclosed.
  assert (Hhandle :
    Session.handle_message decode_message decode_sample_request make_key
      handle_control_message st file_id frame tx
    = Some (Err ConnectionClosed, st', tx)).
  { unfold Session.handle_message.
    by rewrite Hmsg, Htype, Hreq, Hperform, Hclosed. }
  split_and!; [done|done| |done].
  cbn [Session.recv_task]. by rewrite Hhandle.
Qed.

Lemma send_failure_ends_session_witness :
  ∃ st',
    Session.recv_task request_message request_of_length constant_key
      accept_control
      [Session.Binary (zeros 9); Session.Binary (zeros 4)]
      demo_state "file"
      {| Stream.receiver_alive := false; Stream.sent := [] |}
    = Some (st', {| Stream.receiver_alive := false; Stream.sent := [] |}).
Proof.
  destruct (Session.perform_sampling constant_key demo_state "file" 9)
    as [[sample| |] st'] eqn:Hperform;
    [|vm_compute in Hperform; discriminate..].
  assert (sample = [byte_of 4; byte_of 5; byte_of 6; byte_of 9; byte_of 10;
                    byte_of 11; byte_of 17; byte_of 18; byte_of 19]) as Hs.
  { vm_compute in Hperform. injection Hperform as <- _. vm_compute. reflexivity. }
  exists st'.
  apply (send_failure_ends_session request_message request_of_length
           constant_key accept_control demo_state st' "file" (zeros 9)
           {| Session.type_field := Session.SampleRequest;
              Session.id := ""; Session.timestamp := 0;
              Session.payload := zeros 9 |}
           {| Session.sample_size := 9; Session.method := "uniform" |}
           sample [Session.Binary (zeros 4)]
           {| Stream.receiver_alive := false; Stream.sent := [] |}).
  - reflexivity.
  - reflexivity.
  - reflexivity.
  - exact Hperform.
  - rewrite Hs. discriminate.
  - rewrite Hs. vm_compute. discriminate.
  - reflexivity.
Defined.
